(** * Cyano Wallet: the account API ([src/api/accountApi.ts])

    A shallow embedding of the account functions of the wallet, and proofs
    about the registry of accounts they keep.

    - A JavaScript string is a [string], one [ascii] a code unit (labels are
      uuids and provider names, keys are WIF or hex text, addresses are
      base58 text); [===] on strings is [String.eqb] and [.length] is
      [String.length].
    - A function that can [throw] returns a [result].  A function that writes
      to the wallet object it was handed returns the wallet after the call
      next to the value it returns.
    - What the file imports from [ontology-ts-sdk], [ontology-ts-crypto],
      [Buffer] and [./authApi] is not part of it: those functions are the
      fields of the class [Sdk], and the definitions and theorems are stated
      for every instance of the class.  The values [uuid()] and the salt
      generator return are arguments ([Draws]).
    - The WIF decoding the spec describes (Base58, a SHA-256 checksum, the
      version byte) is written out as [WIF_decode]; what depends on the SDK's
      decoder being that one says so ([SdkDecodesWIF]). *)

From Stdlib Require Import List String Ascii Bool Arith NArith Lia.
From Stdlib Require Import Strings.Byte.
Import ListNotations.

Local Open Scope string_scope.
Local Open Scope list_scope.

Set Implicit Arguments.

(** ** Exceptions *)

(** A JavaScript [Error] object, by its message. *)
Inductive Error : Type :=
| JsError (message : string).

(** The outcome of a call: a returned value, or a thrown error. *)
Inductive result (A : Type) : Type :=
| Ok (value : A)
| Throw (e : Error).

Arguments Ok {A} value.
Arguments Throw {A} e.

Definition bind {A B : Type} (c : result A) (k : A -> result B) : result B :=
  match c with
  | Ok a => k a
  | Throw e => Throw e
  end.

Notation "x <- c ;; k" := (bind c (fun x => k))
  (at level 61, c at next level, right associativity).

Notation "' pat <- c ;; k" := (bind c (fun x => match x with pat => k end))
  (at level 61, pat pattern, c at next level, right associativity).

(** ** JavaScript strings *)

(** [s.split(sep)] for a separator of one character: the pieces of [s] between
    the occurrences of [sep], in order.  The result is never empty
    ([''.split('@')] is [['']]). *)
Fixpoint String_split (sep : ascii) (s : string) : list string :=
  match s with
  | EmptyString => [EmptyString]
  | String c rest =>
      if Ascii.eqb c sep then EmptyString :: String_split sep rest
      else match String_split sep rest with
           | piece :: pieces => String c piece :: pieces
           | [] => [String c EmptyString]
           end
  end.

(** The number of occurrences of a character in a string. *)
Fixpoint occurrences (c : ascii) (s : string) : nat :=
  match s with
  | EmptyString => 0
  | String c' rest => (if Ascii.eqb c' c then 1 else 0) + occurrences c rest
  end.

(** A string in a condition: [''] is falsy, every other string is truthy. *)
Definition truthy (s : string) : bool := negb (s =? "").

(** [a === d] for a string [a] and a property [d] that may be [null] or
    [undefined]. *)
Definition same_address (a : string) (d : option string) : bool :=
  match d with
  | Some s => a =? s
  | None => false
  end.

(** ** Buffers *)

(** The lower-case hex digit of a value below 16, by its character code. *)
Definition hex_digit (d : N) : ascii :=
  ascii_of_N (if (d <? 10)%N then 48 + d else 87 + d)%N.

(** [buf.toString('hex')]: two lower-case digits a byte. *)
Fixpoint Buffer_toString_hex (buf : list byte) : string :=
  match buf with
  | [] => EmptyString
  | b :: rest =>
      String (hex_digit (N.div (Byte.to_N b) 16))
        (String (hex_digit (N.modulo (Byte.to_N b) 16))
           (Buffer_toString_hex rest))
  end.

(** The value of a hex digit of either case, by its character code. *)
Definition hex_digit_value (c : ascii) : option N :=
  let code := N_of_ascii c in
  if (48 <=? code)%N && (code <=? 57)%N then Some (code - 48)%N
  else if (97 <=? code)%N && (code <=? 102)%N then Some (code - 87)%N
  else if (65 <=? code)%N && (code <=? 70)%N then Some (code - 55)%N
  else None.

(** The bytes a hex text spells, two digits a byte: [None] when a character
    is no hex digit or a digit is left over. *)
Fixpoint bytes_of_hex (text : string) : option (list byte) :=
  match text with
  | EmptyString => Some []
  | String hi (String lo rest) =>
      match hex_digit_value hi, hex_digit_value lo, bytes_of_hex rest with
      | Some h, Some l, Some tail =>
          match Byte.of_N (16 * h + l) with
          | Some b => Some (b :: tail)
          | None => None
          end
      | _, _, _ => None
      end
  | String _ EmptyString => None
  end.

(** ** SHA-256 (FIPS 180-4), on bytes *)

(** A number as a word of 32 bits. *)
Definition word32 (x : N) : N := N.land x 4294967295.

Definition rotate_right (k x : N) : N :=
  word32 (N.lor (N.shiftr x k) (N.shiftl x (32 - k))).

Definition xor3 (x y z : N) : N := N.lxor (N.lxor x y) z.

Definition big_sigma0 (x : N) : N :=
  xor3 (rotate_right 2 x) (rotate_right 13 x) (rotate_right 22 x).

Definition big_sigma1 (x : N) : N :=
  xor3 (rotate_right 6 x) (rotate_right 11 x) (rotate_right 25 x).

Definition small_sigma0 (x : N) : N :=
  xor3 (rotate_right 7 x) (rotate_right 18 x) (N.shiftr x 3).

Definition small_sigma1 (x : N) : N :=
  xor3 (rotate_right 17 x) (rotate_right 19 x) (N.shiftr x 10).

Definition choose (e f g : N) : N :=
  N.lxor (N.land e f) (N.land (N.lxor e 4294967295) g).

Definition majority (a b c : N) : N :=
  xor3 (N.land a b) (N.land a c) (N.land b c).

Definition is_prime (k : nat) : bool :=
  (2 <=? k)%nat &&
  forallb (fun d => negb (k mod d =? 0)%nat) (seq 2 (k - 2)).

(** The first 64 primes, 2 to 311. *)
Definition first_primes : list N :=
  map N.of_nat (firstn 64 (filter is_prime (seq 2 310))).

(** The integer cube root of [x], bit by bit from bit [bits - 1] down. *)
Fixpoint cube_root (bits : nat) (x root : N) : N :=
  match bits with
  | O => root
  | S k =>
      let next := (root + 2 ^ N.of_nat k)%N in
      if (next * next * next <=? x)%N then cube_root k x next
      else cube_root k x root
  end.

(** The first 32 bits of the fractional parts of the cube roots of the first
    64 primes. *)
Definition round_constants : list N :=
  map (fun prime => word32 (cube_root 40 (prime * 2 ^ 96)%N 0%N))
    first_primes.

(** The first 32 bits of the fractional parts of the square roots of the
    first 8 primes. *)
Definition initial_hash : list N :=
  map (fun prime => word32 (N.sqrt (prime * 2 ^ 64)%N)) (firstn 8 first_primes).

(** [count] bytes of [x], most significant first. *)
Definition big_endian (count : nat) (x : N) : list N :=
  map (fun i => ((x / 256 ^ N.of_nat i) mod 256)%N) (rev (seq 0 count)).

(** The message with its padding: a bit 1, zeros, and the length in bits on
    64 bits, to a multiple of 64 bytes. *)
Definition padded (message : list N) : list N :=
  let len := List.length message in
  let zeros := ((64 - (len + 9) mod 64) mod 64)%nat in
  message ++ [128%N] ++ repeat 0%N zeros
    ++ big_endian 8 (8 * N.of_nat len)%N.

Fixpoint number_of (bytes : list N) (acc : N) : N :=
  match bytes with
  | [] => acc
  | b :: rest => number_of rest (acc * 256 + b)%N
  end.

(** The words of 4 bytes of a list of bytes; [fuel] bounds their number. *)
Fixpoint words_of (fuel : nat) (bytes : list N) : list N :=
  match fuel, bytes with
  | S k, _ :: _ => number_of (firstn 4 bytes) 0%N :: words_of k (skipn 4 bytes)
  | _, _ => []
  end.

(** The message schedule, latest word first: [fuel] more words after the
    sixteen of the block. *)
Fixpoint schedule (fuel : nat) (recent : list N) : list N :=
  match fuel with
  | O => recent
  | S k =>
      let w := word32 (small_sigma1 (nth 1 recent 0%N) + nth 6 recent 0%N
                       + small_sigma0 (nth 14 recent 0%N)
                       + nth 15 recent 0%N)%N in
      schedule k (w :: recent)
  end.

(** The eight working variables, [a] to [h]. *)
Definition Working : Type := (N * N * N * N * N * N * N * N)%type.

Definition round (v : Working) (kw : N * N) : Working :=
  let '(a, b, c, d, e, f, g, h) := v in
  let (k, w) := kw in
  let t1 := (h + big_sigma1 e + choose e f g + k + w)%N in
  let t2 := (big_sigma0 a + majority a b c)%N in
  (word32 (t1 + t2), a, b, c, word32 (d + t1), e, f, g).

(** One block of 16 words into the hash value. *)
Definition compress (hash : list N) (block : list N) : list N :=
  let w := rev (schedule 48 (rev block)) in
  let start :=
    (nth 0 hash 0, nth 1 hash 0, nth 2 hash 0, nth 3 hash 0,
     nth 4 hash 0, nth 5 hash 0, nth 6 hash 0, nth 7 hash 0)%N in
  let '(a, b, c, d, e, f, g, h) :=
    fold_left round (combine round_constants w) start in
  map (fun xy => word32 (fst xy + snd xy)%N)
    (combine hash [a; b; c; d; e; f; g; h]).

(** The blocks of 16 words of a list of words; [fuel] bounds their number. *)
Fixpoint blocks_of (fuel : nat) (words : list N) : list (list N) :=
  match fuel, words with
  | S k, _ :: _ => firstn 16 words :: blocks_of k (skipn 16 words)
  | _, _ => []
  end.

Definition byte_of (x : N) : byte :=
  match Byte.of_N (x mod 256) with
  | Some b => b
  | None => Byte.x00
  end.

(** The digest of a message, 32 bytes. *)
Definition SHA256 (message : list byte) : list byte :=
  let bytes := padded (map Byte.to_N message) in
  let words := words_of (List.length bytes) bytes in
  let hash :=
    fold_left compress (blocks_of (List.length words) words) initial_hash in
  map byte_of (flat_map (big_endian 4) hash).

(** ** Base58Check and WIF *)

Definition Base58_alphabet : string :=
  "123456789ABCDEFGHJKLMNPQRSTUVWXYZabcdefghijkmnopqrstuvwxyz".

(** The place of a character in a text, counted from [from]. *)
Fixpoint place_of (c : ascii) (text : string) (from : N) : option N :=
  match text with
  | EmptyString => None
  | String c' rest =>
      if Ascii.eqb c c' then Some from else place_of c rest (from + 1)%N
  end.

(** The number a Base58 text writes, on top of [acc]. *)
Fixpoint Base58_number (text : string) (acc : N) : option N :=
  match text with
  | EmptyString => Some acc
  | String c rest =>
      match place_of c Base58_alphabet 0%N with
      | Some digit => Base58_number rest (acc * 58 + digit)%N
      | None => None
      end
  end.

(** The ['1'] characters a text starts with: each is a zero byte. *)
Fixpoint leading_ones (text : string) : nat :=
  match text with
  | String "1" rest => S (leading_ones rest)
  | _ => 0
  end.

(** The bytes of a number, most significant first, in front of [acc]. *)
Fixpoint bytes_of_number (fuel : nat) (x : N) (acc : list byte) : list byte :=
  match fuel with
  | O => acc
  | S k =>
      if (x =? 0)%N then acc
      else bytes_of_number k (x / 256)%N (byte_of x :: acc)
  end.

(** The bytes a Base58 text encodes; [None] on a character outside the
    alphabet. *)
Definition Base58_decode (text : string) : option (list byte) :=
  match Base58_number text 0%N with
  | Some x =>
      Some (repeat Byte.x00 (leading_ones text)
              ++ bytes_of_number (String.length text) x [])
  | None => None
  end.

Fixpoint bytes_eqb (xs ys : list byte) : bool :=
  match xs, ys with
  | [], [] => true
  | x :: xs', y :: ys' => Byte.eqb x y && bytes_eqb xs' ys'
  | _, _ => false
  end.

(** The checksum of Base58Check: the first four bytes of the SHA-256 digest
    of the SHA-256 digest. *)
Definition checksum (payload : list byte) : list byte :=
  firstn 4 (SHA256 (SHA256 payload)).

(** The spec's error kind for a WIF text whose checksum does not verify. *)
Definition ChecksumMismatch : Error := JsError "ChecksumMismatch".

(** Modelled from the spec: [PrivateKey.deserializeWIF] is the SDK's and not
    under [src/]; the spec has it do the standard WIF decoding: Base58, the
    checksum verified (failing with [ChecksumMismatch]), the version byte
    (0x80), then the 32 bytes of the key, followed or not by the compression
    flag 0x01.  The result is the 32 key bytes. *)
Definition WIF_decode (text : string) : result (list byte) :=
  match Base58_decode text with
  | None => Throw (JsError "InvalidBase58")
  | Some raw =>
      let payload := firstn (List.length raw - 4) raw in
      let check := skipn (List.length raw - 4) raw in
      if negb (bytes_eqb check (checksum payload)) then Throw ChecksumMismatch
      else
        match payload with
        | version :: body =>
            if negb (Byte.eqb version Byte.x80)
            then Throw (JsError "InvalidVersion")
            else if (List.length body =? 32)%nat then Ok body
            else if (List.length body =? 33)%nat
                    && Byte.eqb (nth 32 body Byte.x00) Byte.x01
            then Ok (firstn 32 body)
            else Throw (JsError "InvalidLength")
        | [] => Throw (JsError "InvalidLength")
        end
  end.

(** ** The data model *)

Section AccountApi.

(** [Crypto.KeyType] and [Crypto.CurveLabel], the SDK's enumerations of
    signature algorithms and curves. *)
Context {KeyType CurveLabel : Type}.

Record KeyParameters : Type := mkKeyParameters {
  curve : CurveLabel
}.

(** [Crypto.PrivateKey]: the key as a hex string with its algorithm and curve.
    An account's [encryptedKey] is an object of the same class. *)
Record PrivateKey : Type := mkPrivateKey {
  key : string;
  algorithm : KeyType;
  parameters : KeyParameters
}.

(** [wallet.scrypt]. *)
Record ScryptOptions : Type := mkScryptOptions {
  n : N;
  r : N;
  p : N;
  dkLen : N
}.

(** The parameter object handed to [Account.create] and [decrypt]. *)
Record ScryptParams : Type := mkScryptParams {
  blockSize : N;
  cost : N;
  parallel : N;
  size : N
}.

(** [Account].  [address] holds [account.address.toBase58()], the only view
    of the address the file takes. *)
Record Account : Type := mkAccount {
  address : string;
  label : string;
  salt : string;
  encryptedKey : PrivateKey;
  publicKey : string
}.

(** [Wallet].  [defaultAccountAddress] is [None] when the property is [null]
    or [undefined] (a wallet read from a file that lacks it). *)
Record Wallet : Type := mkWallet {
  accounts : list Account;
  defaultAccountAddress : option string;
  scrypt : ScryptOptions
}.

Definition set_accounts (wallet : Wallet) (accs : list Account) : Wallet :=
  {| accounts := accs;
     defaultAccountAddress := defaultAccountAddress wallet;
     scrypt := scrypt wallet |}.

Definition set_defaultAccountAddress (wallet : Wallet) (d : option string)
  : Wallet :=
  {| accounts := accounts wallet;
     defaultAccountAddress := d;
     scrypt := scrypt wallet |}.

(** A [string | Wallet] parameter. *)
Inductive WalletRef : Type :=
| Encoded (json : string)
| Loaded (wallet : Wallet).

(** The values one call draws from its random sources: the results of the
    [uuid()] calls of lines 67 and 87, and the salt [Account.create] picks. *)
Record Draws : Type := mkDraws {
  walletId : string;
  labelId : string;
  saltBytes : string
}.

(** The object [accountImportPrivateKey] returns; [walletJson] is its
    [wallet] property. *)
Record ImportResult : Type := mkImportResult {
  encryptedWif : string;
  walletJson : string;
  wif : string
}.

(** ** The libraries *)

(** What the file calls and does not define.  [getWallet] is [./authApi]'s;
    the rest is the SDK's, [Buffer]'s and the reader's of
    [ontology-ts-crypto].  A call that can throw returns a [result]. *)
Class Sdk : Type := {
  getWallet : string -> result Wallet;
  Wallet_create : string -> Wallet;
  Wallet_toJson : Wallet -> string;
  (** [Account.create(privateKey, password, label, params)], with the salt it
      draws. *)
  Account_create :
    PrivateKey -> string -> string -> ScryptParams -> string -> result Account;
  PrivateKey_deserializeWIF : string -> result PrivateKey;
  PrivateKey_serializeWIF : PrivateKey -> string;
  PrivateKey_generateFromMnemonic : string -> string -> result PrivateKey;
  (** [encryptedKey.decrypt(password, address, saltHex, params)]. *)
  PrivateKey_decrypt :
    PrivateKey -> string -> string -> string -> ScryptParams ->
    result PrivateKey;
  (** [Buffer.from(text, 'base64').toString('hex')]. *)
  base64_to_hex : string -> string;
  KeyType_ECDSA : KeyType;
  CurveLabel_SECP256R1 : CurveLabel;
  KeyType_fromHex : N -> result KeyType;
  CurveLabel_fromHex : N -> result CurveLabel;
  (** [new Buffer(str, 'hex')]. *)
  Buffer_from_hex : string -> result (list byte);
  (** What a [Reader] throws when asked for bytes past the end. *)
  Reader_EOF : Error
}.

Context {sdk : Sdk}.

(** Modelled from the spec: the SDK's [Wallet.addAccount] is not under
    [src/]; the spec has it append the account to the ordered list. *)
Definition Wallet_addAccount (wallet : Wallet) (account : Account) : Wallet :=
  set_accounts wallet (accounts wallet ++ [account]).

(** Modelled from the spec: the SDK's [Wallet.setDefaultAccount] is not under
    [src/]; it stores the address as [defaultAccountAddress]. *)
Definition Wallet_setDefaultAccount (wallet : Wallet) (addr : string)
  : Wallet :=
  set_defaultAccountAddress wallet (Some addr).

(** ** The reader *)

(** Modelled from the spec: the [Reader] of [ontology-ts-crypto] is not under
    [src/]; it reads a buffer front to back, a tag byte or a run of key bytes
    at a time.  A reader is the bytes it has not read yet. *)
Definition Reader : Type := list byte.

Definition Reader_readByte (rd : Reader) : result (N * Reader) :=
  match rd with
  | b :: rest => Ok (Byte.to_N b, rest)
  | [] => Throw Reader_EOF
  end.

Definition Reader_readBytes (count : nat) (rd : Reader)
  : result (list byte * Reader) :=
  if (count <=? List.length rd)%nat
  then Ok (firstn count rd, skipn count rd)
  else Throw Reader_EOF.

(** ** The functions of the file *)

(** The first lines of every function that takes [string | Wallet]. *)
Definition resolveWallet (wallet : WalletRef) : result Wallet :=
  match wallet with
  | Encoded json => getWallet json
  | Loaded w => Ok w
  end.

(** Lines 73-78 (and 35-38): the wallet's scrypt object as parameters. *)
Definition scryptParamsOf (sc : ScryptOptions) : ScryptParams :=
  {| blockSize := r sc; cost := n sc; parallel := p sc; size := dkLen sc |}.

(** [deserializePrivateKey], lines 188-209. *)
Definition deserializePrivateKey (str : string) : result PrivateKey :=
  b <- Buffer_from_hex str ;;
  let rd : Reader := b in
  if (List.length b =? 32)%nat then
    let algorithm := KeyType_ECDSA in
    let curve := CurveLabel_SECP256R1 in
    '(sk, _) <- Reader_readBytes 32 rd ;;
    Ok (mkPrivateKey (Buffer_toString_hex sk) algorithm
          (mkKeyParameters curve))
  else
    '(algorithmHex, rd) <- Reader_readByte rd ;;
    '(curveHex, rd) <- Reader_readByte rd ;;
    '(sk, _) <- Reader_readBytes 32 rd ;;
    algorithm <- KeyType_fromHex algorithmHex ;;
    curve <- CurveLabel_fromHex curveHex ;;
    Ok (mkPrivateKey (Buffer_toString_hex sk) algorithm
          (mkKeyParameters curve)).

(** Lines 82-86: the key of an import, from its text. *)
Definition importedPrivateKey (privateKeyStr : string) : result PrivateKey :=
  if (String.length privateKeyStr =? 52)%nat
  then PrivateKey_deserializeWIF privateKeyStr
  else deserializePrivateKey privateKeyStr.

(** Line 87: the label of an imported account. *)
Definition importedLabel (draws : Draws) (torusType : option string)
  : string :=
  match torusType with
  | Some t => if truthy t then labelId draws ++ "@" ++ t else labelId draws
  | None => labelId draws
  end.

(** Lines 89-92: the account enters the wallet unless its address is there
    already, and its address becomes the default one. *)
Definition registerAccount (wallet : Wallet) (account : Account) : Wallet :=
  let wallet :=
    if negb (existsb (fun item => address item =? address account)
               (accounts wallet))
    then Wallet_addAccount wallet account
    else wallet in
  Wallet_setDefaultAccount wallet (address account).

(** [accountImportPrivateKey], lines 65-98.  [None] is a [null] wallet. *)
Definition accountImportPrivateKey (draws : Draws)
    (privateKeyStr password : string) (wallet : option WalletRef)
    (torusType : option string) : result (Wallet * ImportResult) :=
  wallet <- match wallet with
            | None => Ok (Wallet_create (walletId draws))
            | Some ref => resolveWallet ref
            end ;;
  let scryptParams := scryptParamsOf (scrypt wallet) in
  privateKey <- importedPrivateKey privateKeyStr ;;
  let label := importedLabel draws torusType in
  account <- Account_create privateKey password label scryptParams
               (saltBytes draws) ;;
  let wallet := registerAccount wallet account in
  Ok (wallet,
      {| encryptedWif := PrivateKey_serializeWIF (encryptedKey account);
         walletJson := Wallet_toJson wallet;
         wif := PrivateKey_serializeWIF privateKey |}).

(** Line 53: the derivation path of each mode. *)
Definition bip32PathOf (neo : bool) : string :=
  if neo then "m/44'/888'/0'/0/0" else "m/44'/1024'/0'/0/0".

(** [accountImportMnemonics], lines 47-63. *)
Definition accountImportMnemonics (draws : Draws)
    (mnemonics password : string) (neo : bool) (wallet : option WalletRef)
  : result (Wallet * (string * ImportResult)) :=
  let bip32Path := bip32PathOf neo in
  privateKey <- PrivateKey_generateFromMnemonic mnemonics bip32Path ;;
  let wif := PrivateKey_serializeWIF privateKey in
  '(wallet, res) <- accountImportPrivateKey draws wif password wallet None ;;
  Ok (wallet, (mnemonics, res)).

(** [accountDelete], lines 100-118: the wallet after the call and the
    [wallet] property of the object returned. *)
Definition accountDelete (addr : string) (wallet : WalletRef)
  : result (Wallet * string) :=
  wallet <- resolveWallet wallet ;;
  let account := find (fun a => address a =? addr) (accounts wallet) in
  let wallet :=
    match account with
    | Some _ =>
        set_accounts wallet
          (filter (fun a => negb (address a =? addr)) (accounts wallet))
    | None => wallet
    end in
  let wallet :=
    if same_address addr (defaultAccountAddress wallet)
    then set_defaultAccountAddress wallet
           (match accounts wallet with
            | first :: _ => Some (address first)
            | [] => Some ""
            end)
    else wallet in
  Ok (wallet,
      if (List.length (accounts wallet) =? 0)%nat then ""
      else Wallet_toJson wallet).

(** A default address that is neither [null], [undefined] nor ['']. *)
Definition is_set (d : option string) : bool :=
  match d with
  | Some s => truthy s
  | None => false
  end.

(** [getAccount], lines 120-137.  [Ok None] is the [undefined] that
    [wallet.accounts[0]] yields on an empty list. *)
Definition getAccount (wallet : WalletRef) : result (option Account) :=
  wallet <- resolveWallet wallet ;;
  let defaultAddress := defaultAccountAddress wallet in
  if is_set defaultAddress then
    let account :=
      find (fun a => same_address (address a) defaultAddress)
        (accounts wallet) in
    match account with
    | None => Throw (JsError "Default account not found in wallet")
    | Some a => Ok (Some a)
    end
  else Ok (nth_error (accounts wallet) 0).

(** What reading a property of [undefined] throws. *)
Definition TypeError_undefined : Error :=
  JsError "TypeError: Cannot read property of undefined".

(** [decryptAccount], lines 28-40. *)
Definition decryptAccount (wallet : Wallet) (password : string)
  : result PrivateKey :=
  account <- getAccount (Loaded wallet) ;;
  match account with
  | None => Throw TypeError_undefined
  | Some account =>
      let saltHex := base64_to_hex (salt account) in
      let encryptedKey := encryptedKey account in
      let scrypt := scrypt wallet in
      PrivateKey_decrypt encryptedKey password (address account) saltHex
        (scryptParamsOf scrypt)
  end.

(** [isTorusAccount], lines 143-146. *)
Definition isTorusAccount (account : Account) : bool :=
  let torusType := String_split "@" (label account) in
  (List.length torusType =? 2)%nat &&
  match nth_error torusType 1 with
  | Some provider => (provider =? "google") || (provider =? "discord")
  | None => false
  end.

(** One turn of the loop of lines 153-159, on the list built so far and the
    wallet's default address. *)
Definition filterTorusAccount_step (st : list Account * option string)
    (account : Account) : list Account * option string :=
  let (accountsWithouTorus, defaultAddress) := st in
  if negb (isTorusAccount account)
  then (accountsWithouTorus ++ [account], defaultAddress)
  else if same_address (address account) defaultAddress
       then (accountsWithouTorus, Some "")
       else (accountsWithouTorus, defaultAddress).

(** [filterTorusAccount], lines 148-166: the wallet after the call and the
    string returned. *)
Definition filterTorusAccount (wallet : WalletRef)
  : result (Wallet * string) :=
  wallet <- resolveWallet wallet ;;
  let (accountsWithouTorus, defaultAddress) :=
    fold_left filterTorusAccount_step (accounts wallet)
      ([], defaultAccountAddress wallet) in
  let wallet :=
    set_defaultAccountAddress (set_accounts wallet accountsWithouTorus)
      defaultAddress in
  let wallet :=
    match negb (is_set (defaultAccountAddress wallet)),
          nth_error (accounts wallet) 0 with
    | true, Some first =>
        set_defaultAccountAddress wallet (Some (address first))
    | _, _ => wallet
    end in
  Ok (wallet, Wallet_toJson wallet).

(** ** Sequences of calls on one wallet *)

(** A call that changes the accounts of a wallet. *)
Inductive Operation : Type :=
| ImportPrivateKey (draws : Draws) (privateKeyStr password : string)
    (torusType : option string)
| DeleteAccount (addr : string)
| FilterTorus.

(** The wallet object after one call.  Each function writes to the wallet
    after its last call that can throw, so a call that throws leaves the
    wallet as it was. *)
Definition perform (wallet : Wallet) (op : Operation) : Wallet :=
  match op with
  | ImportPrivateKey draws privateKeyStr password torusType =>
      match accountImportPrivateKey draws privateKeyStr password
              (Some (Loaded wallet)) torusType with
      | Ok (wallet', _) => wallet'
      | Throw _ => wallet
      end
  | DeleteAccount addr =>
      match accountDelete addr (Loaded wallet) with
      | Ok (wallet', _) => wallet'
      | Throw _ => wallet
      end
  | FilterTorus =>
      match filterTorusAccount (Loaded wallet) with
      | Ok (wallet', _) => wallet'
      | Throw _ => wallet
      end
  end.

Definition performAll (wallet : Wallet) (ops : list Operation) : Wallet :=
  fold_left perform ops wallet.

(** ** The invariants of a wallet *)

(** The default address is empty: [null], [undefined] or ['']. *)
Definition no_default (wallet : Wallet) : Prop :=
  defaultAccountAddress wallet = None \/
  defaultAccountAddress wallet = Some "".

(** The accounts of the wallet that have the address [d]. *)
Definition holders (wallet : Wallet) (d : string) : list Account :=
  filter (fun a => address a =? d) (accounts wallet).

(** The default address is empty exactly when there is no account, and is
    otherwise the address of exactly one account. *)
Definition DefaultInvariant (wallet : Wallet) : Prop :=
  (no_default wallet <-> accounts wallet = []) /\
  (accounts wallet <> [] ->
   exists d, defaultAccountAddress wallet = Some d /\
             List.length (holders wallet d) = 1).

(** No two accounts share an address, and every address is a base58 text,
    which is never empty. *)
Definition AddressesWellFormed (wallet : Wallet) : Prop :=
  NoDup (map address (accounts wallet)) /\
  Forall (fun a => address a <> "") (accounts wallet).

(** ** Closed forms

    What the loops and branches above amount to, for the proofs. *)

(** The accounts [filterTorusAccount] keeps. *)
Definition kept (accs : list Account) : list Account :=
  filter (fun a => negb (isTorusAccount a)) accs.

(** Some federated account of the list has the address [d]. *)
Definition federated_default (accs : list Account) (d : option string)
  : bool :=
  existsb (fun a => isTorusAccount a && same_address (address a) d) accs.

(** The wallet [filterTorusAccount] leaves. *)
Definition filtered (wallet : Wallet) : Wallet :=
  let d :=
    if federated_default (accounts wallet) (defaultAccountAddress wallet)
    then Some "" else defaultAccountAddress wallet in
  {| accounts := kept (accounts wallet);
     defaultAccountAddress :=
       match negb (is_set d), kept (accounts wallet) with
       | true, first :: _ => Some (address first)
       | _, _ => d
       end;
     scrypt := scrypt wallet |}.

(** The wallet [accountDelete] leaves. *)
Definition deleted (wallet : Wallet) (addr : string) : Wallet :=
  let accs := filter (fun a => negb (address a =? addr)) (accounts wallet) in
  {| accounts := accs;
     defaultAccountAddress :=
       if same_address addr (defaultAccountAddress wallet)
       then match accs with
            | first :: _ => Some (address first)
            | [] => Some ""
            end
       else defaultAccountAddress wallet;
     scrypt := scrypt wallet |}.

(** The invariant in the form the calls keep: distinct non-empty addresses,
    and a default address that is empty on an empty list and an address of
    the list otherwise. *)
Definition Consistent (wallet : Wallet) : Prop :=
  AddressesWellFormed wallet /\
  match accounts wallet with
  | [] => no_default wallet
  | _ :: _ =>
      exists d, defaultAccountAddress wallet = Some d /\
                In d (map address (accounts wallet))
  end.

(** ** The SDK's WIF decoder *)

(** Modelled from the spec: [PrivateKey.deserializeWIF] is the SDK's and not
    under [src/].  It does the WIF decoding of [WIF_decode]: it throws what
    the decoding throws, and the text of the key it returns is the hex text
    of the decoded bytes. *)
Definition SdkDecodesWIF : Prop :=
  forall text,
    match WIF_decode text with
    | Ok sk =>
        exists privateKey,
          PrivateKey_deserializeWIF text = Ok privateKey /\
          key privateKey = Buffer_toString_hex sk
    | Throw e => PrivateKey_deserializeWIF text = Throw e
    end.

(** ** The other functions of the file *)

(** [accountSignUp], lines 42-45.  [generated] is the mnemonic
    [utils.generateMnemonic(32)] returned. *)
Definition accountSignUp (generated : string) (draws : Draws)
    (password : string) (neo : bool) (wallet : option WalletRef)
  : result (Wallet * (string * ImportResult)) :=
  let mnemonics := generated in
  accountImportMnemonics draws mnemonics password neo wallet.

(** [isCurrentTorusAccount], lines 139-142.  [isTorusAccount] reads
    [account.label], which throws on [undefined]. *)
Definition isCurrentTorusAccount (wallet : WalletRef) : result bool :=
  account <- getAccount wallet ;;
  match account with
  | None => Throw TypeError_undefined
  | Some account => Ok (isTorusAccount account)
  end.

(** [getAddress], lines 168-171. *)
Definition getAddress (wallet : WalletRef) : result string :=
  account <- getAccount wallet ;;
  match account with
  | None => Throw TypeError_undefined
  | Some account => Ok (address account)
  end.

(** [getPublicKey], lines 173-182. *)
Definition getPublicKey (walletEncoded : string) : result string :=
  wallet <- getWallet walletEncoded ;;
  let account :=
    find (fun a => same_address (address a) (defaultAccountAddress wallet))
      (accounts wallet) in
  match account with
  | Some account => Ok (publicKey account)
  | None => Ok ""
  end.

(** The [type] property of a key object as lodash's [get] reads it: [None]
    when the object has none. *)
Variable get_type : PrivateKey -> option string.

(** [isLedgerKey], lines 184-186. *)
Definition isLedgerKey (wallet : Wallet) : result bool :=
  account <- getAccount (Loaded wallet) ;;
  match account with
  | None => Throw TypeError_undefined
  | Some account =>
      Ok (match get_type (encryptedKey account) with
          | Some type => type =? "LEDGER"
          | None => false
          end)
  end.

End AccountApi.

Arguments KeyParameters : clear implicits.
Arguments PrivateKey : clear implicits.
Arguments Account : clear implicits.
Arguments Wallet : clear implicits.
Arguments WalletRef : clear implicits.
Arguments Sdk : clear implicits.

(** * A stand-in for the libraries

    An instance of [Sdk] small enough to compute with, and a few accounts and
    wallets.  It serves to run the functions above on concrete inputs; the
    theorems below are proved for every instance. *)

Module Sample.

Inductive KeyType : Type := ECDSA | SM2 | EDDSA.

Inductive CurveLabel : Type := SECP224R1 | SECP256R1 | SECP384R1 | SM2P256V1.

(** The value of a hex digit, either case, from its character code. *)
Definition hex_value (c : ascii) : option N :=
  let code := N_of_ascii c in
  if (48 <=? code)%N && (code <=? 57)%N then Some (code - 48)%N
  else if (97 <=? code)%N && (code <=? 102)%N then Some (code - 87)%N
  else if (65 <=? code)%N && (code <=? 70)%N then Some (code - 55)%N
  else None.

(** Pairs of hex digits, up to the first pair that is not one. *)
Fixpoint decode_hex (s : string) : list byte :=
  match s with
  | String hi (String lo rest) =>
      match hex_value hi, hex_value lo with
      | Some h, Some l =>
          match Byte.of_N (16 * h + l) with
          | Some b => b :: decode_hex rest
          | None => []
          end
      | _, _ => []
      end
  | _ => []
  end.

Definition keyTypeOf (tag : N) : result KeyType :=
  match tag with
  | 18%N => Ok ECDSA
  | 19%N => Ok SM2
  | 20%N => Ok EDDSA
  | _ => Throw (JsError "Enum value not found")
  end.

Definition curveOf (tag : N) : result CurveLabel :=
  match tag with
  | 1%N => Ok SECP224R1
  | 2%N => Ok SECP256R1
  | 3%N => Ok SECP384R1
  | 20%N => Ok SM2P256V1
  | _ => Throw (JsError "Enum value not found")
  end.

Definition scryptDefault : ScryptOptions :=
  {| n := 4096; r := 8; p := 8; dkLen := 64 |}.

Definition toJson (wallet : Wallet KeyType CurveLabel) : string :=
  "{" ++ String.concat "," (map (@address _ _) (accounts wallet)) ++ "}".

Definition create (privateKey : PrivateKey KeyType CurveLabel)
    (password label : string) (params : ScryptParams) (saltText : string)
  : result (Account KeyType CurveLabel) :=
  Ok {| address := "A" ++ key privateKey;
        label := label;
        salt := saltText;
        encryptedKey :=
          {| key := password ++ "/" ++ key privateKey;
             algorithm := algorithm privateKey;
             parameters := parameters privateKey |};
        publicKey := "P" ++ key privateKey |}.

(** The inverse of what [create] does to a key: the password, a slash and
    the key. *)
Definition decrypt (encrypted : PrivateKey KeyType CurveLabel)
    (password addr saltHex : string) (params : ScryptParams)
  : result (PrivateKey KeyType CurveLabel) :=
  let lead := (password ++ "/")%string in
  if String.prefix lead (key encrypted)
  then Ok {| key := String.substring (String.length lead)
                      (String.length (key encrypted) - String.length lead)
                      (key encrypted);
             algorithm := algorithm encrypted;
             parameters := parameters encrypted |}
  else Throw (JsError "Decrypto_ERROR").

#[global] Instance sdk : Sdk KeyType CurveLabel := {|
  getWallet := fun _ => Throw (JsError "no wallet");
  Wallet_create := fun _ => mkWallet [] (Some "") scryptDefault;
  Wallet_toJson := toJson;
  Account_create := create;
  PrivateKey_deserializeWIF := fun _ => Throw (JsError "checksum");
  PrivateKey_serializeWIF := fun k => ("K" ++ key k)%string;
  PrivateKey_generateFromMnemonic :=
    fun m path =>
      Ok (mkPrivateKey (m ++ path)%string ECDSA
            (mkKeyParameters SECP256R1));
  PrivateKey_decrypt := decrypt;
  base64_to_hex := fun text => text;
  KeyType_ECDSA := ECDSA;
  CurveLabel_SECP256R1 := SECP256R1;
  KeyType_fromHex := keyTypeOf;
  CurveLabel_fromHex := curveOf;
  Buffer_from_hex := fun s => Ok (decode_hex s);
  Reader_EOF := JsError "EOF"
|}.

Definition account (addr lbl : string) : Account KeyType CurveLabel :=
  {| address := addr;
     label := lbl;
     salt := "c2FsdA==";
     encryptedKey := mkPrivateKey "00" ECDSA (mkKeyParameters SECP256R1);
     publicKey := "02" |}.

Definition A := account "AddrA" "x".
Definition B := account "AddrB" "y@google".
Definition C := account "AddrC" "z@discord".

(** The account a second import of A's key creates: A's address under a new
    label. *)
Definition A_again := account "AddrA" "9b2e".

Definition wallet (accs : list (Account KeyType CurveLabel))
    (d : option string) : Wallet KeyType CurveLabel :=
  mkWallet accs d scryptDefault.

(** A raw key of 32 bytes in hex, and the draws of one call. *)
Definition rawKey : string :=
  "0102030405060708090a0b0c0d0e0f101112131415161718191a1b1c1d1e1f20".

Definition draws : Draws :=
  {| walletId := "6f1c"; labelId := "9b2e"; saltBytes := "c2FsdA==" |}.

(** The stand-in with a stored wallet behind the handle ["main"]. *)
Definition main : Wallet KeyType CurveLabel := wallet [A; B] (Some "AddrB").

Definition stored : Sdk KeyType CurveLabel := {|
  getWallet := fun json =>
    if (json =? "main")%string then Ok main
    else Throw (JsError "no wallet");
  Wallet_create := fun _ => mkWallet [] (Some "") scryptDefault;
  Wallet_toJson := toJson;
  Account_create := create;
  PrivateKey_deserializeWIF := fun _ => Throw (JsError "checksum");
  PrivateKey_serializeWIF := fun k => ("K" ++ key k)%string;
  PrivateKey_generateFromMnemonic :=
    fun m path =>
      Ok (mkPrivateKey (m ++ path)%string ECDSA
            (mkKeyParameters SECP256R1));
  PrivateKey_decrypt := decrypt;
  base64_to_hex := fun text => text;
  KeyType_ECDSA := ECDSA;
  CurveLabel_SECP256R1 := SECP256R1;
  KeyType_fromHex := keyTypeOf;
  CurveLabel_fromHex := curveOf;
  Buffer_from_hex := fun s => Ok (decode_hex s);
  Reader_EOF := JsError "EOF"
|}.

(** The account the stand-in creates from [rawKey], under another label. *)
Definition K : Account KeyType CurveLabel :=
  account (String "A" rawKey) "k".

(** The stand-in with a derivation that always yields [rawKey] and a WIF
    text that is the hex text of the key. *)
Definition signing : Sdk KeyType CurveLabel := {|
  getWallet := fun _ => Throw (JsError "no wallet");
  Wallet_create := fun _ => mkWallet [] (Some "") scryptDefault;
  Wallet_toJson := toJson;
  Account_create := create;
  PrivateKey_deserializeWIF := fun _ => Throw (JsError "checksum");
  PrivateKey_serializeWIF := fun k => key k;
  PrivateKey_generateFromMnemonic :=
    fun m path =>
      Ok (mkPrivateKey rawKey ECDSA (mkKeyParameters SECP256R1));
  PrivateKey_decrypt := decrypt;
  base64_to_hex := fun text => text;
  KeyType_ECDSA := ECDSA;
  CurveLabel_SECP256R1 := SECP256R1;
  KeyType_fromHex := keyTypeOf;
  CurveLabel_fromHex := curveOf;
  Buffer_from_hex := fun s => Ok (decode_hex s);
  Reader_EOF := JsError "EOF"
|}.

(** The stand-in with the WIF decoder of [WIF_decode]. *)
Definition wif : Sdk KeyType CurveLabel := {|
  getWallet := fun _ => Throw (JsError "no wallet");
  Wallet_create := fun _ => mkWallet [] (Some "") scryptDefault;
  Wallet_toJson := toJson;
  Account_create := create;
  PrivateKey_deserializeWIF :=
    fun text =>
      sk <- WIF_decode text ;;
      Ok (mkPrivateKey (Buffer_toString_hex sk) ECDSA
            (mkKeyParameters SECP256R1));
  PrivateKey_serializeWIF := fun k => ("K" ++ key k)%string;
  PrivateKey_generateFromMnemonic :=
    fun m path =>
      Ok (mkPrivateKey (m ++ path)%string ECDSA
            (mkKeyParameters SECP256R1));
  PrivateKey_decrypt := decrypt;
  base64_to_hex := fun text => text;
  KeyType_ECDSA := ECDSA;
  CurveLabel_SECP256R1 := SECP256R1;
  KeyType_fromHex := keyTypeOf;
  CurveLabel_fromHex := curveOf;
  Buffer_from_hex := fun s => Ok (decode_hex s);
  Reader_EOF := JsError "EOF"
|}.

(** The WIF text of [rawKey] (version 0x80, compression flag 0x01), and the
    same text with its last character changed. *)
Definition rawKeyWIF : string :=
  "KwFfpDsaF7yxCELuyrH9gP5XL7TAt5b9HPWC1xCQbmrxvhJgMQHb".

Definition corruptedWIF : string :=
  "KwFfpDsaF7yxCELuyrH9gP5XL7TAt5b9HPWC1xCQbmrxvhJgMQHc".

(** No key of the stand-in is a Ledger key. *)
Definition no_type (k : PrivateKey KeyType CurveLabel) : option string :=
  None.

End Sample.

(** * Properties *)

(** ** Splitting a label *)

Lemma String_split_not_nil (sep : ascii) (s : string) :
  String_split sep s <> [].
Proof.
  induction s as [|c rest IH]; simpl; [discriminate|].
  destruct (Ascii.eqb c sep); [discriminate|].
  destruct (String_split sep rest); [contradiction|discriminate].
Qed.

Lemma String_split_length (sep : ascii) (s : string) :
  List.length (String_split sep s) = S (occurrences sep s).
Proof.
  induction s as [|c rest IH]; simpl; [reflexivity|].
  destruct (Ascii.eqb c sep); simpl; [now rewrite IH|].
  destruct (String_split sep rest) eqn:E; simpl in *; [discriminate|exact IH].
Qed.

Lemma occurrences_app (c : ascii) (s t : string) :
  occurrences c (s ++ t)%string = occurrences c s + occurrences c t.
Proof.
  induction s as [|c' rest IH]; simpl; [reflexivity|].
  rewrite IH. lia.
Qed.

Lemma String_split_no_sep (sep : ascii) (s : string) :
  occurrences sep s = 0 -> String_split sep s = [s].
Proof.
  induction s as [|c rest IH]; simpl; [reflexivity|].
  destruct (Ascii.eqb c sep); [discriminate|].
  intros H. rewrite (IH H). reflexivity.
Qed.

Lemma String_split_app (sep : ascii) (s t : string) :
  occurrences sep s = 0 ->
  String_split sep (s ++ String sep t)%string = s :: String_split sep t.
Proof.
  induction s as [|c rest IH]; simpl.
  - intros _. now rewrite Ascii.eqb_refl.
  - destruct (Ascii.eqb c sep); [discriminate|].
    intros H. rewrite (IH H). reflexivity.
Qed.

(** A split into two pieces cuts the string at its only separator. *)
Lemma String_split_two (sep : ascii) (s a b : string) :
  String_split sep s = [a; b] -> s = (a ++ String sep b)%string.
Proof.
  revert a; induction s as [|c rest IH]; simpl; intros a; [discriminate|].
  destruct (Ascii.eqb_spec c sep) as [->|Hc].
  - intros H. injection H as <- H.
    assert (L := String_split_length sep rest). rewrite H in L. simpl in L.
    rewrite (String_split_no_sep sep rest) in H by lia.
    injection H as ->. reflexivity.
  - destruct (String_split sep rest) as [|piece pieces] eqn:E; [discriminate|].
    intros H. injection H as <- ->.
    rewrite (IH piece eq_refl). reflexivity.
Qed.

(** ** Federated accounts *)

Section Federated.

Context {KeyType CurveLabel : Type}.

Implicit Types account : Account KeyType CurveLabel.

Lemma isTorusAccount_split account :
  isTorusAccount account = true <->
  exists id provider,
    String_split "@" (label account) = [id; provider] /\
    (provider = "google" \/ provider = "discord").
Proof.
  unfold isTorusAccount.
  destruct (String_split "@" (label account)) as [|id [|provider [|x l]]];
    simpl; split; try discriminate;
    try (intros (i & q & H & _); discriminate).
  - intros H. exists id, provider. split; [reflexivity|].
    apply orb_true_iff in H.
    destruct H as [H|H]; apply String.eqb_eq in H; auto.
  - intros (i & q & H & Hq). injection H as -> ->.
    apply orb_true_iff.
    destruct Hq as [-> | ->]; [left|right]; apply String.eqb_refl.
Qed.

(** C7. [isTorusAccount] holds of an account exactly when its label has one
    ['@'] and what follows it is ["google"] or ["discord"]; it is false of
    every other label: one with no ['@'], with more than one, or with another
    provider after it. *)
Theorem isTorusAccount_iff account :
  isTorusAccount account = true <->
  occurrences "@" (label account) = 1 /\
  exists id provider,
    label account = (id ++ "@" ++ provider)%string /\
    (provider = "google" \/ provider = "discord").
Proof.
  rewrite isTorusAccount_split. split.
  - intros (id & provider & H & Hp). split.
    + assert (L := String_split_length "@" (label account)).
      rewrite H in L. simpl in L. lia.
    + exists id, provider. split; [|exact Hp].
      exact (String_split_two _ _ H).
  - intros (Hone & id & provider & H & Hp).
    exists id, provider. split; [|exact Hp].
    change (id ++ "@" ++ provider)%string
      with (id ++ String "@" provider)%string in H.
    rewrite H in Hone |- *.
    rewrite occurrences_app in Hone. simpl in Hone.
    rewrite (String_split_app "@" id provider) by lia.
    rewrite String_split_no_sep by lia. reflexivity.
Qed.

End Federated.

(** ** The default account *)

Section DefaultAccount.

Context {KeyType CurveLabel : Type} {sdk : Sdk KeyType CurveLabel}.

Implicit Types wallet : Wallet KeyType CurveLabel.
Implicit Types ref : WalletRef KeyType CurveLabel.

Lemma is_set_true (d : option string) :
  is_set d = true <-> exists s, d = Some s /\ s <> "".
Proof.
  destruct d as [s|]; simpl; unfold truthy.
  - rewrite negb_true_iff, String.eqb_neq. split.
    + intros H. exists s. auto.
    + intros (s' & [= ->] & H). exact H.
  - split; [discriminate|]. intros (s & H & _). discriminate.
Qed.

Lemma is_set_false (d : option string) :
  is_set d = false <-> d = None \/ d = Some "".
Proof.
  destruct d as [s|]; simpl; unfold truthy.
  - rewrite negb_false_iff, String.eqb_eq. split.
    + intros ->. now right.
    + intros [H|[= ->]]; [discriminate|reflexivity].
  - split; auto.
Qed.

Lemma getAccount_loaded ref wallet :
  resolveWallet ref = Ok wallet -> getAccount ref = getAccount (Loaded wallet).
Proof.
  unfold getAccount. intros ->. reflexivity.
Qed.

(** C4. With a default address that is set, [getAccount] returns the account
    of the wallet that has it, and throws ['Default account not found in
    wallet'] when no account has it; with a default address that is [null],
    [undefined] or [''], it returns the first account of the list. *)
Theorem getAccount_default ref wallet :
  resolveWallet ref = Ok wallet ->
  (forall d, defaultAccountAddress wallet = Some d -> d <> "" ->
     (forall a, In a (accounts wallet) -> address a = d ->
        exists found,
          getAccount ref = Ok (Some found) /\
          In found (accounts wallet) /\ address found = d /\
          ((forall b, In b (accounts wallet) -> address b = d -> b = a) ->
           found = a)) /\
     ((forall a, In a (accounts wallet) -> address a <> d) ->
        getAccount ref =
        Throw (JsError "Default account not found in wallet"))) /\
  (defaultAccountAddress wallet = None \/
   defaultAccountAddress wallet = Some "" ->
   getAccount ref = Ok (hd_error (accounts wallet))).
Proof.
  intros Href. rewrite (getAccount_loaded _ Href). unfold getAccount. simpl.
  split.
  - intros d Hd Hne.
    assert (Hset : is_set (defaultAccountAddress wallet) = true)
      by (apply is_set_true; eauto).
    rewrite Hset, Hd. simpl. split.
    + intros a Hin Ha.
      destruct (find (fun a0 => address a0 =? d) (accounts wallet))
        as [found|] eqn:Hfind.
      * apply find_some in Hfind. destruct Hfind as [Hf Heq].
        apply String.eqb_eq in Heq.
        exists found. repeat split; auto.
      * apply find_none with (x := a) in Hfind; [|exact Hin].
        apply String.eqb_neq in Hfind. contradiction.
    + intros Hnone.
      destruct (find (fun a0 => address a0 =? d) (accounts wallet))
        as [found|] eqn:Hfind; [|reflexivity].
      apply find_some in Hfind. destruct Hfind as [Hf Heq].
      apply String.eqb_eq in Heq. destruct (Hnone found Hf Heq).
  - intros Hunset. apply is_set_false in Hunset. rewrite Hunset.
    destruct (accounts wallet); reflexivity.
Qed.

(** C10. On a wallet with no account and a default address that is [null],
    [undefined] or [''], [getAccount] returns [wallet.accounts[0]], which is
    [undefined], and throws nothing; when it throws, the default address is
    a non-empty string. *)
Theorem getAccount_no_accounts ref wallet :
  resolveWallet ref = Ok wallet ->
  (accounts wallet = [] ->
   defaultAccountAddress wallet = None \/
   defaultAccountAddress wallet = Some "" ->
   getAccount ref = Ok (nth_error (accounts wallet) 0) /\
   getAccount ref = Ok None) /\
  (forall e, getAccount ref = Throw e ->
     e = JsError "Default account not found in wallet" /\
     exists d, defaultAccountAddress wallet = Some d /\ d <> "").
Proof.
  intros Href. rewrite (getAccount_loaded _ Href). unfold getAccount. simpl.
  split.
  - intros Hnil Hunset. apply is_set_false in Hunset. rewrite Hunset, Hnil.
    split; reflexivity.
  - intros e.
    destruct (is_set (defaultAccountAddress wallet)) eqn:Hset;
      [|discriminate].
    apply is_set_true in Hset.
    destruct (find _ (accounts wallet)); [discriminate|].
    intros [= <-]. split; [reflexivity|exact Hset].
Qed.

End DefaultAccount.

Lemma getAccount_default_witness :
  getAccount (Loaded (Sample.wallet [Sample.A; Sample.B] (Some "AddrB")))
  = Ok (Some Sample.B).
Proof.
  set (w := Sample.wallet [Sample.A; Sample.B] (Some "AddrB")).
  destruct (getAccount_default (Loaded w) eq_refl) as [Hset _].
  assert (Hne : "AddrB" <> "") by discriminate.
  destruct (Hset "AddrB" eq_refl Hne) as [Hfound _].
  assert (Hin : In Sample.B (accounts w)) by (right; left; reflexivity).
  destruct (Hfound Sample.B Hin eq_refl) as (found & Hget & _ & _ & Huniq).
  rewrite Hget. f_equal. f_equal. apply Huniq.
  intros b [<-|[<-|[]]]; [discriminate|reflexivity].
Defined.

Lemma getAccount_no_accounts_witness :
  getAccount (Loaded (Sample.wallet [] (Some ""))) = Ok None.
Proof.
  set (w := Sample.wallet [] (Some "")).
  destruct (getAccount_no_accounts (Loaded w) eq_refl) as [Hempty _].
  destruct (Hempty eq_refl (or_intror eq_refl)) as [_ Hnone].
  exact Hnone.
Defined.

(** ** Filtering the federated accounts out *)

Section FederatedFilter.

Context {KeyType CurveLabel : Type} {sdk : Sdk KeyType CurveLabel}.

Implicit Types wallet : Wallet KeyType CurveLabel.
Implicit Types ref : WalletRef KeyType CurveLabel.
Implicit Types a account : Account KeyType CurveLabel.
Implicit Types accs acc : list (Account KeyType CurveLabel).

(** The loop of lines 153-159 collects the accounts that are not federated,
    in order, and empties the default address when a federated account has
    it. *)
Lemma filterTorusAccount_loop accs acc d :
  fold_left filterTorusAccount_step accs (acc, d) =
  (acc ++ kept accs, if federated_default accs d then Some "" else d).
Proof.
  revert acc d. induction accs as [|a accs IH]; intros acc d; simpl.
  - now rewrite app_nil_r.
  - destruct (isTorusAccount a) eqn:Ha; simpl.
    + destruct (same_address (address a) d) eqn:Hd; simpl.
      * rewrite IH. now destruct (federated_default accs (Some "")).
      * now rewrite IH.
    + rewrite IH, <- app_assoc. reflexivity.
Qed.

Lemma filterTorusAccount_loaded wallet :
  filterTorusAccount (Loaded wallet) =
  Ok (filtered wallet, Wallet_toJson (filtered wallet)).
Proof.
  unfold filterTorusAccount, filtered. simpl.
  rewrite filterTorusAccount_loop. simpl.
  set (d := if federated_default _ _ then _ else _).
  destruct (negb (is_set d)); destruct (kept (accounts wallet)); reflexivity.
Qed.

Lemma filterTorusAccount_resolved ref wallet :
  resolveWallet ref = Ok wallet ->
  filterTorusAccount ref =
  Ok (filtered wallet, Wallet_toJson (filtered wallet)).
Proof.
  intros Href. rewrite <- filterTorusAccount_loaded.
  unfold filterTorusAccount. rewrite Href. reflexivity.
Qed.

Lemma federated_default_intro accs d a :
  In a accs -> isTorusAccount a = true -> address a = d ->
  federated_default accs (Some d) = true.
Proof.
  intros Hin Ht Ha. apply existsb_exists. exists a. split; [exact Hin|].
  rewrite Ht. simpl. rewrite Ha. apply String.eqb_refl.
Qed.

(** C5. [filterTorusAccount] keeps the accounts that are not federated, in
    their order, and drops the others.  When the default account was
    federated, the default address becomes that of the first account left,
    and [''] when none is left.  On [[A; B; C]] labelled ["x"], ["y@google"],
    ["z@discord"] with B as default, it leaves [[A]] with A as default. *)
Theorem filterTorusAccount_spec ref wallet :
  resolveWallet ref = Ok wallet ->
  exists wallet',
    filterTorusAccount ref = Ok (wallet', Wallet_toJson wallet') /\
    accounts wallet' =
      filter (fun a => negb (isTorusAccount a)) (accounts wallet) /\
    (forall a, In a (accounts wallet') <->
               In a (accounts wallet) /\ isTorusAccount a = false) /\
    (forall d a,
       defaultAccountAddress wallet = Some d ->
       In a (accounts wallet) -> address a = d -> isTorusAccount a = true ->
       defaultAccountAddress wallet' =
         match accounts wallet' with
         | first :: _ => Some (address first)
         | [] => Some ""
         end) /\
    (forall A B C,
       label A = "x" -> label B = "y@google" -> label C = "z@discord" ->
       accounts wallet = [A; B; C] ->
       defaultAccountAddress wallet = Some (address B) ->
       accounts wallet' = [A] /\
       defaultAccountAddress wallet' = Some (address A)).
Proof.
  intros Href. exists (filtered wallet).
  split; [exact (filterTorusAccount_resolved _ Href)|].
  split; [reflexivity|]. split; [|split].
  - intros a. simpl. unfold kept. rewrite filter_In, negb_true_iff.
    reflexivity.
  - intros d a Hd Hin Ha Ht. simpl.
    rewrite Hd, (federated_default_intro _ _ Hin Ht Ha). simpl.
    destruct (kept (accounts wallet)); reflexivity.
  - intros A B C HA HB HC Haccs Hd.
    assert (TA : isTorusAccount A = false)
      by (unfold isTorusAccount; rewrite HA; reflexivity).
    assert (TB : isTorusAccount B = true)
      by (unfold isTorusAccount; rewrite HB; reflexivity).
    assert (TC : isTorusAccount C = true)
      by (unfold isTorusAccount; rewrite HC; reflexivity).
    assert (HinB : In B (accounts wallet))
      by (rewrite Haccs; right; left; reflexivity).
    assert (Hk : kept (accounts wallet) = [A])
      by (rewrite Haccs; unfold kept; simpl; rewrite TA, TB, TC;
          reflexivity).
    simpl. rewrite Hk, Hd, (federated_default_intro _ _ HinB TB eq_refl).
    split; reflexivity.
Qed.

End FederatedFilter.

Lemma filterTorusAccount_spec_witness :
  exists wallet' json,
    filterTorusAccount
      (Loaded (Sample.wallet [Sample.A; Sample.B; Sample.C] (Some "AddrB")))
    = Ok (wallet', json) /\
    accounts wallet' = [Sample.A] /\
    defaultAccountAddress wallet' = Some "AddrA".
Proof.
  set (w := Sample.wallet [Sample.A; Sample.B; Sample.C] (Some "AddrB")).
  destruct (filterTorusAccount_spec (Loaded w) eq_refl)
    as (w' & Hcall & _ & _ & _ & Hexample).
  destruct (Hexample Sample.A Sample.B Sample.C
              eq_refl eq_refl eq_refl eq_refl eq_refl) as [Haccs Hdef].
  exists w', (Wallet_toJson w'). repeat split; assumption.
Defined.

(** C6, at a wallet whose only account is federated: [accountDelete] answers
    [''] when it empties the wallet, and [filterTorusAccount] answers the
    JSON text of the emptied wallet. *)
Theorem filterTorusAccount_emptied
    (sdk : Sdk Sample.KeyType Sample.CurveLabel) :
  accountDelete "AddrB" (Loaded (Sample.wallet [Sample.B] (Some "AddrB")))
  = Ok (Sample.wallet [] (Some ""), "") /\
  filterTorusAccount (Loaded (Sample.wallet [Sample.B] (Some "AddrB")))
  = Ok (Sample.wallet [] (Some ""),
        Wallet_toJson (Sample.wallet [] (Some ""))).
Proof.
  split; reflexivity.
Qed.

(** ** Importing an account *)

Section ImportAccount.

Context {KeyType CurveLabel : Type} {sdk : Sdk KeyType CurveLabel}.

Implicit Types wallet : Wallet KeyType CurveLabel.
Implicit Types ref : WalletRef KeyType CurveLabel.
Implicit Types a account : Account KeyType CurveLabel.
Implicit Types accs : list (Account KeyType CurveLabel).

Lemma existsb_address accs account :
  existsb (fun item => address item =? address account) accs = true <->
  exists b, In b accs /\ address b = address account.
Proof.
  rewrite existsb_exists. split; intros (b & Hin & Hb); exists b; split;
    auto; now apply String.eqb_eq.
Qed.

(** Lines 89-92 on an address the wallet has: the list stays. *)
Lemma registerAccount_known wallet account :
  (exists b, In b (accounts wallet) /\ address b = address account) ->
  registerAccount wallet account =
  set_defaultAccountAddress wallet (Some (address account)).
Proof.
  intros H. apply existsb_address in H.
  unfold registerAccount. rewrite H. reflexivity.
Qed.

(** Lines 89-92 on a fresh address: the account goes to the end. *)
Lemma registerAccount_fresh wallet account :
  (forall b, In b (accounts wallet) -> address b <> address account) ->
  registerAccount wallet account =
  set_defaultAccountAddress
    (set_accounts wallet (accounts wallet ++ [account]))
    (Some (address account)).
Proof.
  intros H. unfold registerAccount.
  destruct (existsb _ (accounts wallet)) eqn:E; [|reflexivity].
  apply existsb_address in E. destruct E as (b & Hin & Hb).
  destruct (H b Hin Hb).
Qed.

(** A successful import, step by step. *)
Lemma accountImportPrivateKey_ok draws str password ref torusType
    wallet wallet' res :
  resolveWallet ref = Ok wallet ->
  accountImportPrivateKey draws str password (Some ref) torusType
  = Ok (wallet', res) ->
  exists privateKey account,
    importedPrivateKey str = Ok privateKey /\
    Account_create privateKey password (importedLabel draws torusType)
      (scryptParamsOf (scrypt wallet)) (saltBytes draws) = Ok account /\
    wallet' = registerAccount wallet account /\
    res = {| encryptedWif := PrivateKey_serializeWIF (encryptedKey account);
             walletJson := Wallet_toJson wallet';
             wif := PrivateKey_serializeWIF privateKey |}.
Proof.
  intros Href. unfold accountImportPrivateKey. rewrite Href. simpl.
  destruct (importedPrivateKey str) as [privateKey|e] eqn:Hkey;
    [simpl|discriminate].
  destruct (Account_create privateKey password _ _ _) as [account|e]
    eqn:Hcreate; [simpl|discriminate].
  intros [= <- <-]. exists privateKey, account. repeat split; auto.
Qed.

(** C2, as the code has it.  An import whose account has an address of the
    wallet leaves the list of accounts, and so its size, as it was, and makes
    that address the default one; an import with a fresh address puts the
    account at the end of the list and makes it the default one. *)
Theorem accountImportPrivateKey_registers draws str password ref torusType
    wallet wallet' res :
  resolveWallet ref = Ok wallet ->
  accountImportPrivateKey draws str password (Some ref) torusType
  = Ok (wallet', res) ->
  exists privateKey account,
    importedPrivateKey str = Ok privateKey /\
    Account_create privateKey password (importedLabel draws torusType)
      (scryptParamsOf (scrypt wallet)) (saltBytes draws) = Ok account /\
    defaultAccountAddress wallet' = Some (address account) /\
    ((exists b, In b (accounts wallet) /\ address b = address account) ->
     accounts wallet' = accounts wallet /\
     List.length (accounts wallet') = List.length (accounts wallet)) /\
    ((forall b, In b (accounts wallet) -> address b <> address account) ->
     accounts wallet' = accounts wallet ++ [account]).
Proof.
  intros Href Hcall.
  destruct (accountImportPrivateKey_ok _ _ _ _ _ Href Hcall)
    as (privateKey & account & Hkey & Hcreate & -> & _).
  exists privateKey, account.
  split; [exact Hkey|]. split; [exact Hcreate|]. split; [reflexivity|].
  split.
  - intros H. rewrite (registerAccount_known _ _ H). split; reflexivity.
  - intros H. now rewrite (registerAccount_fresh _ _ H).
Qed.

End ImportAccount.

Lemma accountImportPrivateKey_registers_witness :
  exists wallet' res,
    accountImportPrivateKey Sample.draws Sample.rawKey "pw"
      (Some (Loaded (Sample.wallet [Sample.A; Sample.B] (Some "AddrB"))))
      None
    = Ok (wallet', res) /\
    List.length (accounts wallet') = 3 /\
    defaultAccountAddress wallet' = Some (String "A" Sample.rawKey).
Proof.
  set (w := Sample.wallet [Sample.A; Sample.B] (Some "AddrB")).
  destruct (accountImportPrivateKey Sample.draws Sample.rawKey "pw"
              (Some (Loaded w)) None) as [[wallet' res]|e] eqn:Hcall;
    [|vm_compute in Hcall; discriminate].
  destruct (accountImportPrivateKey_registers _ _ _ (Loaded w) _
              eq_refl Hcall)
    as (privateKey & account & Hkey & Hcreate & Hdef & _ & Hfresh).
  vm_compute in Hkey. injection Hkey as <-.
  vm_compute in Hcreate. injection Hcreate as <-.
  exists wallet', res. split; [reflexivity|]. split; [|exact Hdef].
  rewrite Hfresh; [reflexivity|].
  intros b [<-|[<-|[]]]; discriminate.
Defined.

(** C2 as the specification words it fails.  In a wallet that holds A and B with B as
    default, importing A's key again creates an account with A's address:
    lines 89-92 leave the list as it was and move the default address from
    B's to A's. *)
Lemma reimport_moves_default :
  (exists b,
     In b (accounts (Sample.wallet [Sample.A; Sample.B] (Some "AddrB"))) /\
     address b = address Sample.A_again) /\
  accounts
    (registerAccount (Sample.wallet [Sample.A; Sample.B] (Some "AddrB"))
       Sample.A_again)
  = accounts (Sample.wallet [Sample.A; Sample.B] (Some "AddrB")) /\
  defaultAccountAddress
    (registerAccount (Sample.wallet [Sample.A; Sample.B] (Some "AddrB"))
       Sample.A_again)
  <> defaultAccountAddress
       (Sample.wallet [Sample.A; Sample.B] (Some "AddrB")).
Proof.
  split; [exists Sample.A; split; [left|]; reflexivity|].
  split; [reflexivity|]. simpl. discriminate.
Qed.

(** ** The default invariant *)

Section Invariant.

Context {KeyType CurveLabel : Type} {sdk : Sdk KeyType CurveLabel}.

Implicit Types wallet : Wallet KeyType CurveLabel.
Implicit Types a b account : Account KeyType CurveLabel.
Implicit Types accs : list (Account KeyType CurveLabel).

Lemma NoDup_map_filter (f : Account KeyType CurveLabel -> string)
    (keep : Account KeyType CurveLabel -> bool) accs :
  NoDup (map f accs) -> NoDup (map f (filter keep accs)).
Proof.
  induction accs as [|a accs IH]; simpl; intros H; [constructor|].
  inversion H as [|x l Hnotin Hnodup]; subst.
  destruct (keep a); simpl; [|auto].
  constructor; [|auto].
  intros Hin. apply Hnotin.
  apply in_map_iff in Hin. destruct Hin as (b & Hb & Hin).
  apply filter_In in Hin. apply in_map_iff. exists b. tauto.
Qed.

Lemma holders_none accs d :
  ~ In d (map (@address _ _) accs) ->
  filter (fun a => address a =? d) accs = [].
Proof.
  induction accs as [|a accs IH]; simpl; intros H; [reflexivity|].
  destruct (String.eqb_spec (address a) d) as [E|E]; [tauto|].
  apply IH. tauto.
Qed.

Lemma holders_one accs d :
  NoDup (map (@address _ _) accs) -> In d (map (@address _ _) accs) ->
  List.length (filter (fun a => address a =? d) accs) = 1.
Proof.
  induction accs as [|a accs IH]; simpl; intros Hnodup Hin; [tauto|].
  inversion Hnodup as [|x l Hnotin Hrest]; subst.
  destruct (String.eqb_spec (address a) d) as [E|E].
  - subst d. simpl. now rewrite holders_none.
  - destruct Hin as [Hin|Hin]; [contradiction|]. auto.
Qed.

Lemma holders_some accs d :
  filter (fun a => address a =? d) accs <> [] ->
  In d (map (@address _ _) accs).
Proof.
  intros H. destruct (filter _ accs) as [|a l] eqn:E; [contradiction|].
  assert (Hin : In a (filter (fun a => address a =? d) accs))
    by (rewrite E; left; reflexivity).
  apply filter_In in Hin. destruct Hin as [Hin Ha].
  apply String.eqb_eq in Ha. subst d. now apply in_map.
Qed.

(** The two forms of the invariant agree on well-formed addresses. *)
Lemma Consistent_iff wallet :
  Consistent wallet <-> AddressesWellFormed wallet /\ DefaultInvariant wallet.
Proof.
  unfold Consistent, DefaultInvariant, no_default, holders.
  split; intros [Hwf H]; (split; [exact Hwf|]);
    destruct Hwf as [Hnodup Hne];
    destruct (accounts wallet) as [|a accs] eqn:Haccs.
  - split; [tauto|]. intros Hcontra. now destruct Hcontra.
  - destruct H as (d & Hd & Hin). split.
    + split; [|discriminate]. rewrite Hd.
      assert (d <> "").
      { apply in_map_iff in Hin. destruct Hin as (b & <- & Hin).
        rewrite Forall_forall in Hne. auto. }
      intros [?|[= ?]]; [discriminate|contradiction].
    + intros _. exists d. split; [exact Hd|]. now apply holders_one.
  - tauto.
  - destruct H as [_ H]. destruct H as (d & Hd & Hone); [discriminate|].
    exists d. split; [exact Hd|]. apply holders_some.
    intros E. rewrite E in Hone. discriminate.
Qed.

Lemma find_none_filter accs addr :
  find (fun a => address a =? addr) accs = None ->
  filter (fun a => negb (address a =? addr)) accs = accs.
Proof.
  induction accs as [|a accs IH]; simpl; [reflexivity|].
  destruct (address a =? addr); [discriminate|].
  intros H. simpl. now rewrite IH.
Qed.

(** Lines 89-92 keep the invariant. *)
Lemma registerAccount_consistent wallet account :
  address account <> "" ->
  Consistent wallet -> Consistent (registerAccount wallet account).
Proof.
  intros Hne [[Hnodup Hall] Hdef]. unfold registerAccount.
  destruct (existsb _ (accounts wallet)) eqn:E; simpl.
  - apply existsb_address in E. destruct E as (b & Hin & Hb).
    split; [split; assumption|]. simpl.
    destruct (accounts wallet) as [|a accs] eqn:Haccs; [destruct Hin|].
    exists (address account). split; [reflexivity|].
    rewrite <- Hb. now apply in_map.
  - assert (Hfresh : ~ In (address account)
                         (map (@address _ _) (accounts wallet))).
    { intros Hin. apply in_map_iff in Hin. destruct Hin as (b & Hb & Hin).
      assert (Ex : existsb (fun item => address item =? address account)
                     (accounts wallet) = true)
        by (apply existsb_address; eauto).
      rewrite Ex in E. discriminate. }
    split; [split|]; simpl.
    + rewrite map_app. apply NoDup_app; [exact Hnodup| |].
      * simpl. constructor; [intros []|constructor].
      * intros x Hx [<-|[]]. contradiction.
    + apply Forall_app. split; [exact Hall|]. constructor; [exact Hne|].
      constructor.
    + destruct (accounts wallet ++ [account]) as [|a accs] eqn:Happ.
      * destruct (accounts wallet); discriminate.
      * exists (address account). split; [reflexivity|].
        rewrite <- Happ, map_app. apply in_or_app. right. now left.
Qed.

Lemma accountDelete_loaded wallet addr :
  accountDelete addr (Loaded wallet) =
  Ok (deleted wallet addr,
      if (List.length (accounts (deleted wallet addr)) =? 0)%nat then ""
      else Wallet_toJson (deleted wallet addr)).
Proof.
  unfold accountDelete, deleted. simpl.
  destruct (find _ (accounts wallet)) eqn:Hfind; simpl.
  - destruct (same_address addr (defaultAccountAddress wallet));
      reflexivity.
  - rewrite (find_none_filter _ _ Hfind).
    destruct (same_address addr (defaultAccountAddress wallet));
      destruct wallet; reflexivity.
Qed.

Lemma Forall_filter_keep (P : Account KeyType CurveLabel -> Prop)
    (keep : Account KeyType CurveLabel -> bool) accs :
  Forall P accs -> Forall P (filter keep accs).
Proof.
  rewrite !Forall_forall. intros H x Hx. apply filter_In in Hx. apply H, Hx.
Qed.

(** [accountDelete] keeps the invariant. *)
Lemma deleted_consistent wallet addr :
  Consistent wallet -> Consistent (deleted wallet addr).
Proof.
  intros [[Hnodup Hall] Hdef].
  unfold Consistent, AddressesWellFormed, no_default, deleted in *.
  split; [split|]; simpl.
  - now apply NoDup_map_filter.
  - now apply Forall_filter_keep.
  - set (accs := filter _ (accounts wallet)).
    destruct (same_address addr (defaultAccountAddress wallet)) eqn:Hsame.
    + destruct accs as [|first rest]; [right; reflexivity|].
      exists (address first). split; [reflexivity|]. now left.
    + destruct (accounts wallet) as [|a0 l0] eqn:Haccs.
      * subst accs. simpl. exact Hdef.
      * destruct Hdef as (d & Hd & Hin).
        assert (Hin' : In d (map (@address _ _) accs)).
        { apply in_map_iff in Hin. destruct Hin as (b & Hb & Hin).
          apply in_map_iff. exists b. split; [exact Hb|].
          apply filter_In. split; [exact Hin|].
          rewrite Hd in Hsame. simpl in Hsame.
          apply negb_true_iff, String.eqb_neq.
          apply String.eqb_neq in Hsame. congruence. }
        destruct accs as [|first rest]; [destruct Hin'|].
        exists d. split; assumption.
Qed.

(** [filterTorusAccount] keeps the invariant. *)
Lemma filtered_consistent wallet :
  Consistent wallet -> Consistent (filtered wallet).
Proof.
  intros [[Hnodup Hall] Hdef].
  unfold Consistent, AddressesWellFormed, no_default, filtered in *.
  split; [split|]; simpl.
  - now apply NoDup_map_filter.
  - now apply Forall_filter_keep.
  - set (d1 := if federated_default _ _ then _ else _).
    assert (Hstay : forall d, d1 = Some d -> d <> "" ->
              In d (map (@address _ _) (kept (accounts wallet)))).
    { intros d Hd1 Hd. subst d1.
      destruct (federated_default _ _) eqn:Hfed; [congruence|].
      destruct (accounts wallet) as [|a0 l0] eqn:Haccs.
      - destruct Hdef as [Hn|Hn]; rewrite Hn in Hd1; congruence.
      - destruct Hdef as (d' & Hd' & Hin). rewrite Hd' in Hd1.
        injection Hd1 as ->.
        apply in_map_iff in Hin. destruct Hin as (b & Hb & Hin).
        apply in_map_iff. exists b. split; [exact Hb|].
        apply filter_In. split; [exact Hin|].
        destruct (isTorusAccount b) eqn:Hb'; [|reflexivity].
        rewrite Hd', (federated_default_intro _ _ Hin Hb' Hb) in Hfed.
        discriminate. }
    destruct (is_set d1) eqn:Hset; simpl.
    + apply is_set_true in Hset. destruct Hset as (d & Hd1 & Hd).
      pose proof (Hstay d Hd1 Hd) as Hin.
      destruct (kept (accounts wallet)) as [|first rest]; [destruct Hin|].
      exists d. split; assumption.
    + apply is_set_false in Hset.
      destruct (kept (accounts wallet)) as [|first rest]; [exact Hset|].
      exists (address first). split; [reflexivity|]. now left.
Qed.

(** One call keeps the invariant. *)
Lemma perform_consistent wallet op :
  (forall privateKey password lbl params saltText account,
     Account_create privateKey password lbl params saltText = Ok account ->
     address account <> "") ->
  Consistent wallet -> Consistent (perform wallet op).
Proof.
  intros Hcreate Hinv.
  destruct op as [draws str password torus|addr|]; unfold perform.
  - destruct (accountImportPrivateKey _ _ _ _ _) as [[wallet' res]|e] eqn:E;
      [|exact Hinv].
    destruct (accountImportPrivateKey_ok _ _ _ (Loaded wallet) _ eq_refl E)
      as (privateKey & account & _ & Hacc & -> & _).
    apply registerAccount_consistent; [|exact Hinv].
    exact (Hcreate _ _ _ _ _ _ Hacc).
  - rewrite accountDelete_loaded. now apply deleted_consistent.
  - rewrite filterTorusAccount_loaded. now apply filtered_consistent.
Qed.

(** C1. From a wallet whose accounts have distinct, non-empty addresses and
    whose default address is empty exactly when it has no account and is
    otherwise the address of exactly one account, every sequence of
    [accountImportPrivateKey], [accountDelete] and [filterTorusAccount] calls
    leads to a wallet of which the same holds. *)
Theorem default_invariant_preserved wallet (ops : list Operation) :
  (forall privateKey password lbl params saltText account,
     Account_create privateKey password lbl params saltText = Ok account ->
     address account <> "") ->
  AddressesWellFormed wallet ->
  DefaultInvariant wallet ->
  DefaultInvariant (performAll wallet ops) /\
  AddressesWellFormed (performAll wallet ops).
Proof.
  intros Hcreate Hwf Hdef.
  assert (Hinv : Consistent wallet) by (apply Consistent_iff; tauto).
  clear Hwf Hdef.
  assert (Hend : Consistent (performAll wallet ops)).
  { unfold performAll. revert wallet Hinv.
    induction ops as [|op ops IH]; intros wallet Hinv; simpl; [exact Hinv|].
    apply IH. now apply perform_consistent. }
  apply Consistent_iff in Hend. tauto.
Qed.

End Invariant.

Lemma default_invariant_preserved_witness :
  DefaultInvariant
    (performAll
       (Sample.wallet [Sample.A; Sample.B; Sample.C] (Some "AddrB"))
       [FilterTorus; DeleteAccount "AddrA";
        ImportPrivateKey Sample.draws Sample.rawKey "pw" None]).
Proof.
  refine (proj1 (@default_invariant_preserved _ _ Sample.sdk
                   (Sample.wallet [Sample.A; Sample.B; Sample.C]
                      (Some "AddrB")) _ _ _ _)).
  - intros privateKey password lbl params saltText account Hcreate.
    simpl in Hcreate. injection Hcreate as <-. simpl. discriminate.
  - split.
    + simpl. repeat constructor; simpl; intuition discriminate.
    + simpl. repeat constructor; discriminate.
  - split.
    + split; [intros [H|H]; discriminate|discriminate].
    + intros _. exists "AddrB". split; reflexivity.
Defined.

(** ** Reading a private key *)

Section KeyImport.

Context {KeyType CurveLabel : Type} {sdk : Sdk KeyType CurveLabel}.

Implicit Types wallet : Wallet KeyType CurveLabel.
Implicit Types ref : WalletRef KeyType CurveLabel.

Lemma Reader_readBytes_all (buf : list byte) :
  Reader_readBytes (List.length buf) buf = Ok (buf, []).
Proof.
  unfold Reader_readBytes. rewrite Nat.leb_refl, firstn_all, skipn_all.
  reflexivity.
Qed.

Lemma Reader_readBytes_prefix (sk rest : list byte) :
  Reader_readBytes (List.length sk) (sk ++ rest) = Ok (sk, rest).
Proof.
  unfold Reader_readBytes.
  assert (Hle : (List.length sk <=? List.length (sk ++ rest))%nat = true)
    by (apply Nat.leb_le; rewrite length_app; lia).
  rewrite Hle, firstn_app, skipn_app, firstn_all, skipn_all, Nat.sub_diag.
  simpl. now rewrite app_nil_r.
Qed.

(** An import that cannot read its key throws what the reader threw. *)
Lemma accountImportPrivateKey_bad_key draws str password ref torusType
    wallet e :
  resolveWallet ref = Ok wallet ->
  importedPrivateKey str = Throw e ->
  accountImportPrivateKey draws str password (Some ref) torusType = Throw e.
Proof.
  intros Href Hkey. unfold accountImportPrivateKey.
  rewrite Href. simpl. rewrite Hkey. reflexivity.
Qed.

Lemma hex_digits_of_byte (b : byte) :
  match hex_digit_value (hex_digit (Byte.to_N b / 16)),
        hex_digit_value (hex_digit (Byte.to_N b mod 16)) with
  | Some h, Some l => Byte.of_N (16 * h + l) = Some b
  | _, _ => False
  end.
Proof.
  destruct b; vm_compute; reflexivity.
Qed.

(** The hex text of a buffer spells its bytes. *)
Lemma bytes_of_hex_toString (buf : list byte) :
  bytes_of_hex (Buffer_toString_hex buf) = Some buf.
Proof.
  induction buf as [|b rest IH]; [reflexivity|].
  cbn [Buffer_toString_hex bytes_of_hex]. rewrite IH.
  pose proof (hex_digits_of_byte b) as H.
  destruct (hex_digit_value (hex_digit (Byte.to_N b / 16)));
    [|destruct H].
  destruct (hex_digit_value (hex_digit (Byte.to_N b mod 16)));
    [|destruct H].
  now rewrite H.
Qed.

Lemma bytes_eqb_eq (xs ys : list byte) :
  bytes_eqb xs ys = true -> xs = ys.
Proof.
  revert ys. induction xs as [|x xs IH]; intros [|y ys]; simpl;
    try discriminate; [reflexivity|].
  intros H. apply andb_true_iff in H. destruct H as [Hx Hrest].
  apply Byte.byte_dec_bl in Hx. subst y. now rewrite (IH ys Hrest).
Qed.

Lemma bytes_eqb_refl (xs : list byte) : bytes_eqb xs xs = true.
Proof.
  induction xs as [|x xs IH]; simpl; [reflexivity|].
  now rewrite (Byte.byte_dec_lb eq_refl), IH.
Qed.

Lemma skipn_last (l : list byte) (d : byte) (k : nat) :
  List.length l = S k -> skipn k l = [nth k l d].
Proof.
  revert l. induction k as [|k IH]; intros [|x l]; simpl;
    try discriminate.
  - destruct l; [reflexivity|discriminate].
  - intros [= H]. exact (IH l H).
Qed.

(** A WIF text decodes only if its checksum verifies, its version byte is
    0x80 and 32 key bytes follow, with or without the flag 0x01. *)
Lemma WIF_decode_ok (text : string) (sk : list byte) :
  WIF_decode text = Ok sk ->
  exists raw flag,
    Base58_decode text = Some raw /\
    skipn (List.length raw - 4) raw
    = checksum (firstn (List.length raw - 4) raw) /\
    firstn (List.length raw - 4) raw = Byte.x80 :: sk ++ flag /\
    List.length sk = 32 /\
    (flag = [] \/ flag = [Byte.x01]).
Proof.
  unfold WIF_decode.
  destruct (Base58_decode text) as [raw|]; [|discriminate].
  remember (firstn (List.length raw - 4) raw) as payload eqn:Hpayload.
  remember (skipn (List.length raw - 4) raw) as check eqn:Hchk.
  cbv zeta.
  destruct (bytes_eqb check (checksum payload)) eqn:Hcheck;
    [cbn [negb]|discriminate].
  apply bytes_eqb_eq in Hcheck.
  destruct payload as [|version body]; [discriminate|].
  destruct (Byte.eqb version Byte.x80) eqn:Hversion;
    [cbn [negb]|discriminate].
  apply Byte.byte_dec_bl in Hversion. subst version.
  destruct (List.length body =? 32)%nat eqn:Hlen.
  - intros [= <-]. apply Nat.eqb_eq in Hlen.
    exists raw, []. rewrite app_nil_r, <- Hpayload, <- Hchk.
    split; [reflexivity|]. split; [exact Hcheck|].
    split; [reflexivity|]. split; [exact Hlen|now left].
  - destruct (List.length body =? 33)%nat eqn:Hlen';
      [cbn [andb]|discriminate].
    destruct (Byte.eqb (nth 32 body Byte.x00) Byte.x01) eqn:Hflag;
      [|discriminate].
    intros [= <-]. apply Nat.eqb_eq in Hlen'.
    apply Byte.byte_dec_bl in Hflag.
    exists raw, [Byte.x01]. rewrite <- Hpayload, <- Hchk.
    split; [reflexivity|]. split; [exact Hcheck|].
    split; [|split; [|now right]].
    + f_equal. rewrite <- (firstn_skipn 32 body) at 1. f_equal.
      rewrite (skipn_last body Byte.x00 Hlen'), Hflag. reflexivity.
    + change (List.length (firstn 32 body) = 32).
      rewrite length_firstn. lia.
Qed.

(** A WIF text whose checksum does not verify is refused. *)
Lemma WIF_decode_mismatch (text : string) (raw : list byte) :
  Base58_decode text = Some raw ->
  skipn (List.length raw - 4) raw
  <> checksum (firstn (List.length raw - 4) raw) ->
  WIF_decode text = Throw ChecksumMismatch.
Proof.
  intros Hraw Hne. unfold WIF_decode. rewrite Hraw.
  destruct (bytes_eqb _ _) eqn:E; [|reflexivity].
  apply bytes_eqb_eq in E. contradiction.
Qed.

Lemma tagged_buffer (b : list byte) :
  34 <= List.length b ->
  exists algorithmHex curveHex sk rest,
    b = algorithmHex :: curveHex :: sk ++ rest /\ List.length sk = 32.
Proof.
  intros Hlen. destruct b as [|algorithmHex [|curveHex body]];
    simpl in Hlen; try lia.
  exists algorithmHex, curveHex, (firstn 32 body), (skipn 32 body).
  rewrite firstn_skipn. split; [reflexivity|].
  rewrite length_firstn. lia.
Qed.

Lemma short_buffer_throws (str : string) (b : list byte) :
  Buffer_from_hex str = Ok b ->
  List.length b <> 32 -> List.length b < 34 ->
  deserializePrivateKey str = Throw Reader_EOF.
Proof.
  intros Hb Hne Hshort. unfold deserializePrivateKey. rewrite Hb. simpl.
  apply Nat.eqb_neq in Hne. rewrite Hne.
  destruct b as [|algorithmHex [|curveHex body]]; try reflexivity.
  cbn [Reader_readByte bind]. unfold Reader_readBytes.
  assert (Hle : (32 <=? List.length body)%nat = false)
    by (apply Nat.leb_gt; simpl in Hshort; lia).
  now rewrite Hle.
Qed.

(** C8. A text of 52 characters is handed to [PrivateKey.deserializeWIF],
    the SDK's WIF decoder: with the decoder the spec describes, a key comes
    back only when the checksum of the text verifies, and is then the 32
    bytes after the version byte; a text whose checksum does not verify
    fails with [ChecksumMismatch].  Any other text is decoded from hex.  A
    buffer of 32 bytes is a key of ECDSA on secp256r1 with those bytes.  A
    buffer of another length is read as an algorithm byte, a curve byte and
    32 bytes of key: the call throws when the buffer is too short for that
    and when the SDK's tables do not know the algorithm or the curve byte.
    [accountImportPrivateKey] uses the key so read, and throws when reading
    it throws. *)
Theorem importedPrivateKey_spec (str : string) :
  (String.length str = 52 ->
   importedPrivateKey str = PrivateKey_deserializeWIF str) /\
  (String.length str <> 52 ->
   importedPrivateKey str = deserializePrivateKey str) /\
  (SdkDecodesWIF ->
   String.length str = 52 ->
   (forall privateKey,
      importedPrivateKey str = Ok privateKey ->
      exists raw sk flag,
        Base58_decode str = Some raw /\
        skipn (List.length raw - 4) raw
        = checksum (firstn (List.length raw - 4) raw) /\
        firstn (List.length raw - 4) raw = Byte.x80 :: sk ++ flag /\
        List.length sk = 32 /\
        (flag = [] \/ flag = [Byte.x01]) /\
        bytes_of_hex (key privateKey) = Some sk) /\
   (forall raw,
      Base58_decode str = Some raw ->
      skipn (List.length raw - 4) raw
      <> checksum (firstn (List.length raw - 4) raw) ->
      importedPrivateKey str = Throw ChecksumMismatch) /\
   (Base58_decode str = None ->
    exists e, importedPrivateKey str = Throw e)) /\
  (forall e, Buffer_from_hex str = Throw e ->
             deserializePrivateKey str = Throw e) /\
  (forall b, Buffer_from_hex str = Ok b ->
     (List.length b = 32 ->
      deserializePrivateKey str =
      Ok (mkPrivateKey (Buffer_toString_hex b) KeyType_ECDSA
            (mkKeyParameters CurveLabel_SECP256R1)) /\
      bytes_of_hex (Buffer_toString_hex b) = Some b) /\
     (List.length b <> 32 -> List.length b < 34 ->
      deserializePrivateKey str = Throw Reader_EOF) /\
     (List.length b <> 32 -> 34 <= List.length b ->
      exists algorithmHex curveHex sk rest,
        b = algorithmHex :: curveHex :: sk ++ rest /\
        List.length sk = 32) /\
     (forall algorithmHex curveHex sk rest,
        List.length b <> 32 ->
        b = algorithmHex :: curveHex :: sk ++ rest ->
        List.length sk = 32 ->
        deserializePrivateKey str =
        match KeyType_fromHex (Byte.to_N algorithmHex),
              CurveLabel_fromHex (Byte.to_N curveHex) with
        | Ok algorithm, Ok curve =>
            Ok (mkPrivateKey (Buffer_toString_hex sk) algorithm
                  (mkKeyParameters curve))
        | Throw e, _ => Throw e
        | Ok _, Throw e => Throw e
        end /\
        bytes_of_hex (Buffer_toString_hex sk) = Some sk)) /\
  (forall draws password ref torusType wallet,
     resolveWallet ref = Ok wallet ->
     (forall e, importedPrivateKey str = Throw e ->
        accountImportPrivateKey draws str password (Some ref) torusType
        = Throw e) /\
     (forall wallet' res,
        accountImportPrivateKey draws str password (Some ref) torusType
        = Ok (wallet', res) ->
        exists privateKey,
          importedPrivateKey str = Ok privateKey /\
          wif res = PrivateKey_serializeWIF privateKey)).
Proof.
  assert (Hwif52 : String.length str = 52 ->
            importedPrivateKey str = PrivateKey_deserializeWIF str).
  { intros Hlen. unfold importedPrivateKey.
    apply Nat.eqb_eq in Hlen. now rewrite Hlen. }
  split; [exact Hwif52|]. split; [|split; [|split; [|split]]].
  - intros Hlen. unfold importedPrivateKey.
    apply Nat.eqb_neq in Hlen. now rewrite Hlen.
  - intros Hsdk Hlen. rewrite (Hwif52 Hlen). specialize (Hsdk str).
    split; [|split].
    + intros privateKey Hkey.
      destruct (WIF_decode str) as [sk|e] eqn:Hdecode;
        [|rewrite Hsdk in Hkey; discriminate].
      destruct Hsdk as (decoded & Hdecoded & Htext).
      rewrite Hdecoded in Hkey. injection Hkey as <-.
      destruct (WIF_decode_ok _ Hdecode)
        as (raw & flag & Hraw & Hcheck & Hpayload & Hsk & Hflag).
      exists raw, sk, flag. repeat (split; [assumption|]).
      rewrite Htext. apply bytes_of_hex_toString.
    + intros raw Hraw Hne.
      now rewrite (WIF_decode_mismatch _ Hraw Hne) in Hsdk.
    + intros Hnone. unfold WIF_decode in Hsdk. rewrite Hnone in Hsdk. eauto.
  - intros e He. unfold deserializePrivateKey. now rewrite He.
  - intros b Hb. split; [|split; [|split]].
    + intros Hlen. split; [|apply bytes_of_hex_toString].
      unfold deserializePrivateKey. rewrite Hb. simpl.
      rewrite Hlen, Nat.eqb_refl, <- Hlen.
      rewrite Reader_readBytes_all. reflexivity.
    + now apply short_buffer_throws.
    + intros _. apply tagged_buffer.
    + intros algorithmHex curveHex sk rest Hlen Hsplit Hsk.
      split; [|apply bytes_of_hex_toString].
      unfold deserializePrivateKey. rewrite Hb. cbn [bind].
      apply Nat.eqb_neq in Hlen. rewrite Hlen. subst b.
      cbn [Reader_readByte bind]. rewrite <- Hsk.
      rewrite Reader_readBytes_prefix. cbn [bind].
      destruct (KeyType_fromHex (Byte.to_N algorithmHex)); cbn [bind];
        [|reflexivity].
      destruct (CurveLabel_fromHex (Byte.to_N curveHex)); reflexivity.
  - intros draws password ref torusType wallet Href. split.
    + intros e He. eapply accountImportPrivateKey_bad_key; eassumption.
    + intros wallet' res Hcall.
      destruct (accountImportPrivateKey_ok _ _ _ _ _ Href Hcall)
        as (privateKey & account & Hkey & _ & _ & ->).
      exists privateKey. split; [exact Hkey|reflexivity].
Qed.

End KeyImport.

Lemma Sample_wif_decodes : SdkDecodesWIF (sdk := Sample.wif).
Proof.
  intros text. simpl. destruct (WIF_decode text) as [sk|e]; simpl; eauto.
Qed.

Lemma SHA256_abc :
  Buffer_toString_hex (SHA256 (list_byte_of_string "abc"))
  = "ba7816bf8f01cfea414140de5dae2223b00361a396177a9cb410ff61f20015ad".
Proof.
  vm_compute. reflexivity.
Qed.

Lemma importedPrivateKey_spec_witness :
  importedPrivateKey Sample.rawKey
  = Ok (mkPrivateKey Sample.rawKey Sample.ECDSA
          (mkKeyParameters Sample.SECP256R1))
  /\ importedPrivateKey (String "1" (String "3" (String "0" (String "2"
       Sample.rawKey))))
     = Ok (mkPrivateKey Sample.rawKey Sample.SM2
             (mkKeyParameters Sample.SECP256R1))
  /\ importedPrivateKey (String "1" (String "3" Sample.rawKey))
     = Throw (JsError "EOF")
  /\ (exists privateKey,
        importedPrivateKey (sdk := Sample.wif) Sample.rawKeyWIF
        = Ok privateKey /\
        bytes_of_hex (key privateKey) = bytes_of_hex Sample.rawKey)
  /\ importedPrivateKey (sdk := Sample.wif) Sample.corruptedWIF
     = Throw ChecksumMismatch.
Proof.
  split; [|split; [|split; [|split]]].
  - destruct (importedPrivateKey_spec (sdk := Sample.sdk) Sample.rawKey)
      as (_ & Hhex & _ & _ & Hbuf & _).
    rewrite Hhex by (vm_compute; intros H; discriminate H).
    destruct (Hbuf (Sample.decode_hex Sample.rawKey) eq_refl) as [Hraw _].
    rewrite (proj1 (Hraw eq_refl)). vm_compute. reflexivity.
  - set (str := String "1" (String "3" (String "0" (String "2"
                  Sample.rawKey)))).
    destruct (importedPrivateKey_spec (sdk := Sample.sdk) str)
      as (_ & Hhex & _ & _ & Hbuf & _).
    rewrite Hhex by (vm_compute; intros H; discriminate H).
    destruct (Hbuf (Sample.decode_hex str) eq_refl)
      as (_ & _ & _ & Htagged).
    rewrite (proj1 (Htagged Byte.x13 Byte.x02
                      (Sample.decode_hex Sample.rawKey) []
                      ltac:(vm_compute; intros H; discriminate H)
                      ltac:(vm_compute; reflexivity)
                      ltac:(vm_compute; reflexivity))).
    vm_compute. reflexivity.
  - set (str := String "1" (String "3" Sample.rawKey)).
    destruct (importedPrivateKey_spec (sdk := Sample.sdk) str)
      as (_ & Hhex & _ & _ & Hbuf & _).
    rewrite Hhex by (vm_compute; intros H; discriminate H).
    destruct (Hbuf (Sample.decode_hex str) eq_refl) as (_ & Hshort & _).
    apply Hshort; vm_compute; [intros H; discriminate H|].
    repeat constructor.
  - destruct (importedPrivateKey (sdk := Sample.wif) Sample.rawKeyWIF)
      as [privateKey|e] eqn:Hkey; [|vm_compute in Hkey; discriminate].
    destruct (importedPrivateKey_spec (sdk := Sample.wif) Sample.rawKeyWIF)
      as (_ & _ & Hwif & _).
    destruct (Hwif Sample_wif_decodes eq_refl) as (Hok & _).
    destruct (Hok privateKey Hkey)
      as (raw & sk & flag & Hraw & _ & Hpayload & Hsk & _ & Htext).
    exists privateKey. split; [reflexivity|]. rewrite Htext.
    vm_compute in Hraw. injection Hraw as <-.
    set (payload := firstn _ _) in Hpayload. vm_compute in payload.
    subst payload. injection Hpayload as Hbody.
    apply (f_equal (firstn 32)) in Hbody.
    rewrite firstn_app, Hsk in Hbody.
    change (32 - 32) with 0 in Hbody.
    rewrite firstn_O, app_nil_r, (firstn_all2 sk) in Hbody by lia.
    rewrite <- Hbody. vm_compute. reflexivity.
  - destruct (importedPrivateKey_spec (sdk := Sample.wif)
                Sample.corruptedWIF) as (_ & _ & Hwif & _).
    destruct (Hwif Sample_wif_decodes eq_refl) as (_ & Hfail & _).
    destruct (Base58_decode Sample.corruptedWIF) as [raw|] eqn:Hraw;
      [|vm_compute in Hraw; discriminate].
    apply (Hfail raw eq_refl).
    vm_compute in Hraw. injection Hraw as <-.
    vm_compute. intros H. discriminate H.
Defined.

(** ** Mnemonics and decryption

    What the file itself settles about the derivation of a key from a
    mnemonic and about decryption: the path it asks the SDK to derive along,
    and the arguments it hands to the SDK's [decrypt]. *)

Section Plumbing.

Context {KeyType CurveLabel : Type} {sdk : Sdk KeyType CurveLabel}.

Implicit Types wallet : Wallet KeyType CurveLabel.
Implicit Types account : Account KeyType CurveLabel.
Implicit Types accs : list (Account KeyType CurveLabel).

(** The two modes ask for two different paths. *)
Lemma bip32PathOf_modes :
  bip32PathOf false = "m/44'/1024'/0'/0/0" /\
  bip32PathOf true = "m/44'/888'/0'/0/0" /\
  bip32PathOf true <> bip32PathOf false.
Proof.
  repeat split. discriminate.
Qed.

(** A successful [accountImportMnemonics] imported the WIF text of the key
    the SDK derived from the mnemonic along the path of the mode. *)
Lemma accountImportMnemonics_key draws mnemonics password neo
    (wallet : option (WalletRef KeyType CurveLabel)) wallet' mnemonics' res :
  accountImportMnemonics draws mnemonics password neo wallet
  = Ok (wallet', (mnemonics', res)) ->
  exists privateKey,
    PrivateKey_generateFromMnemonic mnemonics (bip32PathOf neo)
    = Ok privateKey /\
    mnemonics' = mnemonics /\
    accountImportPrivateKey draws (PrivateKey_serializeWIF privateKey)
      password wallet None = Ok (wallet', res).
Proof.
  unfold accountImportMnemonics.
  destruct (PrivateKey_generateFromMnemonic mnemonics (bip32PathOf neo))
    as [privateKey|e] eqn:Hkey; [simpl|discriminate].
  destruct (accountImportPrivateKey _ _ _ _ _) as [[w r0]|e] eqn:Hcall;
    [simpl|discriminate].
  intros [= <- <- <-]. exists privateKey. auto.
Qed.

Lemma find_fresh_last accs account :
  (forall b, In b accs -> address b <> address account) ->
  find (fun a => address a =? address account) (accs ++ [account])
  = Some account.
Proof.
  induction accs as [|a accs IH]; simpl; intros Hfresh.
  - now rewrite String.eqb_refl.
  - destruct (String.eqb_spec (address a) (address account)) as [E|E].
    + destruct (Hfresh a (or_introl eq_refl) E).
    + apply IH. intros b Hb. apply Hfresh. now right.
Qed.

(** After the import of an account with a fresh address, [decryptAccount]
    hands the SDK's [decrypt] the encrypted key, the address and the salt of
    that account, and the scrypt parameters [Account.create] was given. *)
Lemma decryptAccount_after_import draws str password wallet wallet' res
    attempt :
  accountImportPrivateKey draws str password (Some (Loaded wallet)) None
  = Ok (wallet', res) ->
  exists privateKey account,
    Account_create privateKey password (labelId draws)
      (scryptParamsOf (scrypt wallet)) (saltBytes draws) = Ok account /\
    (address account <> "" ->
     (forall b, In b (accounts wallet) -> address b <> address account) ->
     decryptAccount wallet' attempt =
     PrivateKey_decrypt (encryptedKey account) attempt (address account)
       (base64_to_hex (salt account)) (scryptParamsOf (scrypt wallet))).
Proof.
  intros Hcall.
  destruct (accountImportPrivateKey_ok _ _ _ (Loaded wallet) _ eq_refl Hcall)
    as (privateKey & account & _ & Hcreate & -> & _).
  exists privateKey, account. split; [exact Hcreate|].
  intros Hne Hfresh. rewrite (registerAccount_fresh _ _ Hfresh).
  unfold decryptAccount, getAccount. simpl.
  assert (Hset : truthy (address account) = true)
    by (unfold truthy; now apply negb_true_iff, String.eqb_neq).
  rewrite Hset, (find_fresh_last _ _ Hfresh). reflexivity.
Qed.

End Plumbing.

(** * Further properties *)

(** ** Deleting an account *)

Section Deleting.

Context {KeyType CurveLabel : Type} {sdk : Sdk KeyType CurveLabel}.

Implicit Types wallet : Wallet KeyType CurveLabel.
Implicit Types ref : WalletRef KeyType CurveLabel.
Implicit Types a b account : Account KeyType CurveLabel.
Implicit Types accs : list (Account KeyType CurveLabel).

Lemma accountDelete_resolved addr ref wallet :
  resolveWallet ref = Ok wallet ->
  accountDelete addr ref = accountDelete addr (Loaded wallet).
Proof.
  unfold accountDelete. intros ->. reflexivity.
Qed.

Lemma same_address_true (s : string) (d : option string) :
  same_address s d = true <-> d = Some s.
Proof.
  destruct d as [x|]; simpl; [|split; discriminate].
  rewrite String.eqb_eq. split; [now intros ->|now intros [= ->]].
Qed.

Lemma same_address_false (s : string) (d : option string) :
  same_address s d = false <-> d <> Some s.
Proof.
  rewrite <- same_address_true. destruct (same_address s d); split;
    congruence.
Qed.

Lemma filter_twice (keep : Account KeyType CurveLabel -> bool) accs :
  filter keep (filter keep accs) = filter keep accs.
Proof.
  induction accs as [|a accs IH]; simpl; [reflexivity|].
  destruct (keep a) eqn:E; simpl; [rewrite E, IH|]; auto.
Qed.

Lemma filter_all (keep : Account KeyType CurveLabel -> bool) accs :
  (forall a, In a accs -> keep a = true) -> filter keep accs = accs.
Proof.
  induction accs as [|a accs IH]; simpl; intros H; [reflexivity|].
  rewrite (H a (or_introl eq_refl)), IH; auto.
Qed.

(** X1. [accountDelete] drops the accounts that have the address and keeps
    the others in their order.  When the address was the default one, the
    default becomes the address of the first account left, or [''] when none
    is left; otherwise the default stays.  The call answers [''] when no
    account is left and the wallet's JSON text otherwise. *)
Theorem accountDelete_spec addr ref wallet :
  resolveWallet ref = Ok wallet ->
  exists wallet' answer,
    accountDelete addr ref = Ok (wallet', answer) /\
    accounts wallet' =
      filter (fun a => negb (address a =? addr)) (accounts wallet) /\
    (forall a, In a (accounts wallet') <->
               In a (accounts wallet) /\ address a <> addr) /\
    (defaultAccountAddress wallet = Some addr ->
     defaultAccountAddress wallet' =
       match accounts wallet' with
       | first :: _ => Some (address first)
       | [] => Some ""
       end) /\
    (defaultAccountAddress wallet <> Some addr ->
     defaultAccountAddress wallet' = defaultAccountAddress wallet) /\
    (accounts wallet' = [] -> answer = "") /\
    (accounts wallet' <> [] -> answer = Wallet_toJson wallet').
Proof.
  intros Href. rewrite (accountDelete_resolved _ _ Href).
  rewrite accountDelete_loaded.
  exists (deleted wallet addr). eexists. split; [reflexivity|].
  split; [reflexivity|]. split; [|split; [|split; [|split]]].
  - intros a. simpl. rewrite filter_In, negb_true_iff, String.eqb_neq.
    reflexivity.
  - intros Hd. simpl. apply same_address_true in Hd. now rewrite Hd.
  - intros Hd. simpl. apply same_address_false in Hd. now rewrite Hd.
  - intros Hnil. now rewrite Hnil.
  - intros Hsome. destruct (accounts (deleted wallet addr));
      [contradiction|reflexivity].
Qed.

Lemma deleted_twice wallet addr :
  deleted (deleted wallet addr) addr = deleted wallet addr.
Proof.
  unfold deleted. simpl. rewrite filter_twice.
  set (accs := filter _ (accounts wallet)).
  f_equal.
  destruct (same_address addr (defaultAccountAddress wallet)) eqn:Hd;
    [|now rewrite Hd].
  destruct accs as [|first rest] eqn:Haccs.
  - simpl. now destruct (addr =? "").
  - assert (Hin : In first accs) by (rewrite Haccs; now left).
    apply filter_In in Hin. destruct Hin as [_ Hne].
    apply negb_true_iff in Hne. simpl.
    rewrite String.eqb_sym, Hne. reflexivity.
Qed.

(** X2. Deleting the same address a second time changes nothing: the second
    call leaves the wallet the first call left and gives the same answer. *)
Theorem accountDelete_twice addr wallet :
  exists wallet' answer,
    accountDelete addr (Loaded wallet) = Ok (wallet', answer) /\
    accountDelete addr (Loaded wallet') = Ok (wallet', answer).
Proof.
  exists (deleted wallet addr). eexists.
  split; [apply accountDelete_loaded|].
  rewrite accountDelete_loaded, deleted_twice. reflexivity.
Qed.

(** X3. Deleting an address that no account has and that is not the default
    one leaves the wallet as it is. *)
Theorem accountDelete_absent addr wallet :
  (forall a, In a (accounts wallet) -> address a <> addr) ->
  defaultAccountAddress wallet <> Some addr ->
  exists answer, accountDelete addr (Loaded wallet) = Ok (wallet, answer).
Proof.
  intros Habsent Hd. eexists. rewrite accountDelete_loaded.
  assert (E : deleted wallet addr = wallet).
  { unfold deleted. apply same_address_false in Hd. rewrite Hd.
    rewrite filter_all.
    - now destruct wallet.
    - intros a Ha. apply negb_true_iff, String.eqb_neq. auto. }
  rewrite E. reflexivity.
Qed.

End Deleting.

Lemma accountDelete_spec_witness :
  exists wallet' answer,
    accountDelete "AddrA"
      (Loaded (Sample.wallet [Sample.A; Sample.B; Sample.C] (Some "AddrA")))
    = Ok (wallet', answer) /\
    accounts wallet' = [Sample.B; Sample.C] /\
    defaultAccountAddress wallet' = Some "AddrB".
Proof.
  set (w := Sample.wallet [Sample.A; Sample.B; Sample.C] (Some "AddrA")).
  destruct (accountDelete_spec "AddrA" (Loaded w) eq_refl)
    as (w' & answer & Hcall & Haccs & _ & Hdef & _).
  exists w', answer. split; [exact Hcall|]. split; [exact Haccs|].
  rewrite (Hdef eq_refl), Haccs. reflexivity.
Defined.

Lemma accountDelete_absent_witness :
  exists answer,
    accountDelete "AddrZ"
      (Loaded (Sample.wallet [Sample.A; Sample.B] (Some "AddrB")))
    = Ok (Sample.wallet [Sample.A; Sample.B] (Some "AddrB"), answer).
Proof.
  apply accountDelete_absent.
  - intros a [<-|[<-|[]]]; discriminate.
  - discriminate.
Defined.

(** ** More on the federated filter *)

Section FilterAgain.

Context {KeyType CurveLabel : Type} {sdk : Sdk KeyType CurveLabel}.

Implicit Types wallet : Wallet KeyType CurveLabel.
Implicit Types ref : WalletRef KeyType CurveLabel.
Implicit Types a b account : Account KeyType CurveLabel.
Implicit Types accs : list (Account KeyType CurveLabel).

Lemma kept_not_federated accs a :
  In a (kept accs) -> isTorusAccount a = false.
Proof.
  unfold kept. intros H. apply filter_In in H.
  now apply negb_true_iff.
Qed.

Lemma federated_default_kept accs (d : option string) :
  federated_default (kept accs) d = false.
Proof.
  unfold federated_default.
  destruct (existsb _ (kept accs)) eqn:E; [|reflexivity].
  apply existsb_exists in E. destruct E as (a & Hin & Ha).
  rewrite (kept_not_federated _ _ Hin) in Ha. discriminate.
Qed.

Lemma kept_twice accs : kept (kept accs) = kept accs.
Proof.
  unfold kept. apply filter_twice.
Qed.

Lemma filtered_twice wallet : filtered (filtered wallet) = filtered wallet.
Proof.
  unfold filtered. simpl.
  rewrite federated_default_kept, !kept_twice.
  set (d := if federated_default _ _ then _ else _).
  f_equal.
  destruct (kept (accounts wallet)) as [|first rest].
  - destruct (is_set d) eqn:Hd; simpl; rewrite Hd; reflexivity.
  - destruct (is_set d) eqn:Hd; simpl; [now rewrite Hd|].
    now destruct (truthy (address first)).
Qed.

(** X4. After [filterTorusAccount] no account of the wallet is federated,
    and a second call changes nothing: it leaves the same wallet and returns
    the same text. *)
Theorem filterTorusAccount_twice wallet :
  exists wallet' json,
    filterTorusAccount (Loaded wallet) = Ok (wallet', json) /\
    Forall (fun a => isTorusAccount a = false) (accounts wallet') /\
    filterTorusAccount (Loaded wallet') = Ok (wallet', json).
Proof.
  exists (filtered wallet), (Wallet_toJson (filtered wallet)).
  split; [apply filterTorusAccount_loaded|]. split.
  - apply Forall_forall. intros a Ha. exact (kept_not_federated _ _ Ha).
  - rewrite filterTorusAccount_loaded, filtered_twice. reflexivity.
Qed.

Lemma federated_default_none accs d :
  (forall a, In a accs -> isTorusAccount a = true -> address a <> d) ->
  federated_default accs (Some d) = false.
Proof.
  intros H. unfold federated_default.
  destruct (existsb _ accs) eqn:E; [|reflexivity].
  apply existsb_exists in E. destruct E as (a & Hin & Ha).
  apply andb_true_iff in Ha. destruct Ha as [Ht Hd]. simpl in Hd.
  apply String.eqb_eq in Hd. destruct (H a Hin Ht Hd).
Qed.

(** X5. [filterTorusAccount] leaves alone a default address that is set and
    that no federated account has.  A default address that is [null],
    [undefined] or [''] becomes the address of the first account that is
    left, and stays as it is when none is left. *)
Theorem filterTorusAccount_default ref wallet :
  resolveWallet ref = Ok wallet ->
  exists wallet' json,
    filterTorusAccount ref = Ok (wallet', json) /\
    (forall d,
       defaultAccountAddress wallet = Some d -> d <> "" ->
       (forall a, In a (accounts wallet) -> isTorusAccount a = true ->
                  address a <> d) ->
       defaultAccountAddress wallet' = Some d) /\
    (no_default wallet ->
     defaultAccountAddress wallet' =
       match accounts wallet' with
       | first :: _ => Some (address first)
       | [] => defaultAccountAddress wallet
       end).
Proof.
  intros Href. exists (filtered wallet), (Wallet_toJson (filtered wallet)).
  split; [exact (filterTorusAccount_resolved _ Href)|]. split.
  - intros d Hd Hne Hnone. simpl.
    rewrite Hd, (federated_default_none _ Hnone). simpl.
    assert (Ht : truthy d = true)
      by (unfold truthy; now apply negb_true_iff, String.eqb_neq).
    rewrite Ht. reflexivity.
  - intros [Hd|Hd]; simpl; rewrite Hd.
    + assert (E : federated_default (accounts wallet) None = false).
      { unfold federated_default.
        destruct (existsb _ (accounts wallet)) eqn:E; [|reflexivity].
        apply existsb_exists in E. destruct E as (a & _ & Ha).
        now rewrite andb_false_r in Ha. }
      rewrite E. simpl. now destruct (kept (accounts wallet)).
    + destruct (federated_default (accounts wallet) (Some "")); simpl;
        now destruct (kept (accounts wallet)).
Qed.

(** X6. On the wallet [filterTorusAccount] leaves, [isCurrentTorusAccount]
    never answers [true]. *)
Theorem isCurrentTorusAccount_filtered wallet :
  exists wallet' json,
    filterTorusAccount (Loaded wallet) = Ok (wallet', json) /\
    isCurrentTorusAccount (Loaded wallet') <> Ok true.
Proof.
  exists (filtered wallet), (Wallet_toJson (filtered wallet)).
  split; [apply filterTorusAccount_loaded|].
  unfold isCurrentTorusAccount, getAccount. simpl.
  set (d := match negb _ with true => _ | false => _ end).
  destruct (is_set d).
  - destruct (find _ (kept (accounts wallet))) as [found|] eqn:Hfind;
      simpl; [|discriminate].
    apply find_some in Hfind. destruct Hfind as [Hin _].
    rewrite (kept_not_federated _ _ Hin). discriminate.
  - simpl. destruct (kept (accounts wallet)) as [|first rest] eqn:Hk; simpl;
      [discriminate|].
    assert (Hin : In first (kept (accounts wallet)))
      by (rewrite Hk; now left).
    rewrite (kept_not_federated _ _ Hin). discriminate.
Qed.

End FilterAgain.

Lemma filterTorusAccount_default_witness :
  exists wallet' json,
    filterTorusAccount
      (Loaded (Sample.wallet [Sample.A; Sample.B] (Some "AddrA")))
    = Ok (wallet', json) /\
    defaultAccountAddress wallet' = Some "AddrA".
Proof.
  set (w := Sample.wallet [Sample.A; Sample.B] (Some "AddrA")).
  destruct (filterTorusAccount_default (Loaded w) eq_refl)
    as (w' & json & Hcall & Hset & _).
  exists w', json. split; [exact Hcall|].
  apply Hset; [reflexivity|discriminate|].
  intros a [<-|[<-|[]]] Ht; [discriminate Ht|discriminate].
Defined.

(** ** Reading the default account *)

Section Accessors.

Context {KeyType CurveLabel : Type} {sdk : Sdk KeyType CurveLabel}.

Variable get_type : PrivateKey KeyType CurveLabel -> option string.

Implicit Types wallet : Wallet KeyType CurveLabel.
Implicit Types ref : WalletRef KeyType CurveLabel.
Implicit Types a b account : Account KeyType CurveLabel.
Implicit Types accs : list (Account KeyType CurveLabel).

Lemma performAll_consistent wallet (ops : list Operation) :
  (forall privateKey password lbl params saltText account,
     Account_create privateKey password lbl params saltText = Ok account ->
     address account <> "") ->
  Consistent wallet -> Consistent (performAll wallet ops).
Proof.
  intros Hcreate. unfold performAll. revert wallet.
  induction ops as [|op ops IH]; intros wallet Hinv; simpl; [exact Hinv|].
  apply IH. now apply perform_consistent.
Qed.

Lemma find_address accs d :
  In d (map (@address _ _) accs) ->
  exists found, find (fun a => address a =? d) accs = Some found /\
                In found accs /\ address found = d.
Proof.
  intros Hin. apply in_map_iff in Hin. destruct Hin as (b & Hb & Hin).
  destruct (find (fun a => address a =? d) accs) as [found|] eqn:Hfind.
  - apply find_some in Hfind. destruct Hfind as [Hf Heq].
    apply String.eqb_eq in Heq. eauto.
  - apply find_none with (x := b) in Hfind; [|exact Hin].
    apply String.eqb_neq in Hfind. contradiction.
Qed.

Lemma getAccount_consistent wallet :
  Consistent wallet ->
  (accounts wallet = [] /\ getAccount (Loaded wallet) = Ok None) \/
  (exists a, getAccount (Loaded wallet) = Ok (Some a) /\
             In a (accounts wallet) /\
             defaultAccountAddress wallet = Some (address a)).
Proof.
  intros [[Hnodup Hall] Hdef]. unfold getAccount. simpl.
  destruct (accounts wallet) as [|a0 l0] eqn:Haccs.
  - left. split; [reflexivity|].
    apply is_set_false in Hdef. now rewrite Hdef.
  - right. destruct Hdef as (d & Hd & Hin).
    assert (Hne : d <> "").
    { apply in_map_iff in Hin. destruct Hin as (b & <- & Hin).
      rewrite Forall_forall in Hall. auto. }
    assert (Hset : is_set (defaultAccountAddress wallet) = true)
      by (apply is_set_true; eauto).
    rewrite Hset, Hd. cbn [same_address].
    destruct (find_address _ _ Hin) as (found & Hfind & Hf & Ha).
    rewrite Hfind. exists found. rewrite Ha. auto.
Qed.

(** X7. From a wallet that satisfies the invariants, after any sequence of
    [accountImportPrivateKey], [accountDelete] and [filterTorusAccount]
    calls [getAccount] does not throw: it returns [undefined] when no account
    is left, and otherwise an account of the wallet whose address is the
    default one. *)
Theorem getAccount_after_calls wallet (ops : list Operation) :
  (forall privateKey password lbl params saltText account,
     Account_create privateKey password lbl params saltText = Ok account ->
     address account <> "") ->
  AddressesWellFormed wallet ->
  DefaultInvariant wallet ->
  (accounts (performAll wallet ops) = [] /\
   getAccount (Loaded (performAll wallet ops)) = Ok None) \/
  (exists a,
     getAccount (Loaded (performAll wallet ops)) = Ok (Some a) /\
     In a (accounts (performAll wallet ops)) /\
     defaultAccountAddress (performAll wallet ops) = Some (address a)).
Proof.
  intros Hcreate Hwf Hdef. apply getAccount_consistent.
  apply performAll_consistent; [exact Hcreate|].
  apply Consistent_iff. tauto.
Qed.

(** X8. On a wallet with no account and an empty default address
    [getAccount] returns [undefined], and the functions that read a property
    of its result ([getAddress], [isCurrentTorusAccount], [decryptAccount],
    [isLedgerKey]) throw a [TypeError]. *)
Theorem accessors_on_empty_wallet wallet (password : string) :
  accounts wallet = [] ->
  no_default wallet ->
  getAccount (Loaded wallet) = Ok None /\
  getAddress (Loaded wallet) = Throw TypeError_undefined /\
  isCurrentTorusAccount (Loaded wallet) = Throw TypeError_undefined /\
  decryptAccount wallet password = Throw TypeError_undefined /\
  isLedgerKey get_type wallet = Throw TypeError_undefined.
Proof.
  intros Hnil Hd.
  assert (Hget : getAccount (Loaded wallet) = Ok None).
  { unfold getAccount. simpl. apply is_set_false in Hd.
    now rewrite Hd, Hnil. }
  unfold getAddress, isCurrentTorusAccount, decryptAccount, isLedgerKey.
  rewrite Hget. repeat split; reflexivity.
Qed.

Lemma find_never accs (test : Account KeyType CurveLabel -> bool) :
  (forall a, In a accs -> test a = false) -> find test accs = None.
Proof.
  induction accs as [|a accs IH]; simpl; intros H; [reflexivity|].
  rewrite (H a (or_introl eq_refl)). apply IH. auto.
Qed.

(** X9. Once the handle resolves, [getPublicKey] never throws.  With a set
    default address it returns the public key of the account [getAccount]
    returns, and [''] where [getAccount] throws.  With a default address
    that is [null], [undefined] or [''] it returns [''] whatever the
    accounts, where [getAccount] falls back to the first account. *)
Theorem getPublicKey_spec (walletEncoded : string) wallet :
  getWallet walletEncoded = Ok wallet ->
  (exists text, getPublicKey walletEncoded = Ok text) /\
  (forall d a,
     defaultAccountAddress wallet = Some d -> d <> "" ->
     getAccount (Encoded walletEncoded) = Ok (Some a) ->
     getPublicKey walletEncoded = Ok (publicKey a)) /\
  (forall e,
     getAccount (Encoded walletEncoded) = Throw e ->
     getPublicKey walletEncoded = Ok "") /\
  (no_default wallet ->
   Forall (fun a => address a <> "") (accounts wallet) ->
   getPublicKey walletEncoded = Ok "" /\
   getAccount (Encoded walletEncoded) = Ok (hd_error (accounts wallet))).
Proof.
  intros Hw. unfold getPublicKey, getAccount. simpl. rewrite Hw. simpl.
  split; [|split; [|split]].
  - destruct (find _ (accounts wallet)); eauto.
  - intros d a Hd Hne.
    assert (Hset : is_set (defaultAccountAddress wallet) = true)
      by (apply is_set_true; eauto).
    rewrite Hset. destruct (find _ (accounts wallet)); [|discriminate].
    now intros [= ->].
  - intros e. destruct (is_set (defaultAccountAddress wallet));
      [|discriminate].
    destruct (find _ (accounts wallet)); [discriminate|reflexivity].
  - intros Hd Hall. pose proof Hd as Hunset. apply is_set_false in Hunset.
    rewrite Hunset. split.
    + rewrite find_never; [reflexivity|].
      intros a Ha. rewrite Forall_forall in Hall.
      destruct Hd as [Hd|Hd]; rewrite Hd; simpl; [reflexivity|].
      apply String.eqb_neq. auto.
    + now destruct (accounts wallet).
Qed.

End Accessors.

Lemma getAccount_after_calls_witness :
  exists a,
    getAccount
      (Loaded
         (performAll
            (Sample.wallet [Sample.A; Sample.B; Sample.C] (Some "AddrB"))
            [FilterTorus; ImportPrivateKey Sample.draws Sample.rawKey "pw"
                            None; DeleteAccount "AddrA"]))
    = Ok (Some a) /\
    address a = String "A" Sample.rawKey.
Proof.
  set (w := Sample.wallet [Sample.A; Sample.B; Sample.C] (Some "AddrB")).
  set (ops := [FilterTorus;
               ImportPrivateKey Sample.draws Sample.rawKey "pw" None;
               DeleteAccount "AddrA"]).
  destruct (@getAccount_after_calls _ _ Sample.sdk w ops) as [[Hnil _]|H].
  - intros privateKey password lbl params saltText account Hcreate.
    simpl in Hcreate. injection Hcreate as <-. simpl. discriminate.
  - split.
    + simpl. repeat constructor; simpl; intuition discriminate.
    + simpl. repeat constructor; discriminate.
  - split.
    + split; [intros [H|H]; discriminate|discriminate].
    + intros _. exists "AddrB". split; reflexivity.
  - vm_compute in Hnil. discriminate Hnil.
  - destruct H as (a & Hget & _ & Hd). exists a. split; [exact Hget|].
    assert (E : defaultAccountAddress (performAll w ops)
                = Some (String "A" Sample.rawKey))
      by (vm_compute; reflexivity).
    rewrite E in Hd. injection Hd as Hd. symmetry. exact Hd.
Defined.

Lemma accessors_on_empty_wallet_witness :
  getAddress (Loaded (Sample.wallet [] None)) = Throw TypeError_undefined.
Proof.
  destruct (accessors_on_empty_wallet Sample.no_type
              (wallet := Sample.wallet [] None) "pw"
              eq_refl (or_introl eq_refl)) as (_ & Haddr & _).
  exact Haddr.
Defined.

Lemma getPublicKey_spec_witness :
  getPublicKey (sdk := Sample.stored) "main" = Ok "02".
Proof.
  destruct (getPublicKey_spec (sdk := Sample.stored) "main" eq_refl)
    as (_ & Hset & _).
  exact (Hset "AddrB" Sample.B eq_refl ltac:(discriminate) eq_refl).
Defined.

(** ** Imports and what follows them *)

Section AfterImport.

Context {KeyType CurveLabel : Type} {sdk : Sdk KeyType CurveLabel}.

Implicit Types wallet base : Wallet KeyType CurveLabel.
Implicit Types ref : WalletRef KeyType CurveLabel.
Implicit Types a b account old : Account KeyType CurveLabel.
Implicit Types accs : list (Account KeyType CurveLabel).

(** A successful import on any wallet argument, step by step: [base] is the
    wallet the argument stands for. *)
Lemma accountImportPrivateKey_any draws str password
    (target : option (WalletRef KeyType CurveLabel)) torusType wallet' res :
  accountImportPrivateKey draws str password target torusType
  = Ok (wallet', res) ->
  exists base privateKey account,
    match target with
    | None => base = Wallet_create (walletId draws)
    | Some ref => resolveWallet ref = Ok base
    end /\
    importedPrivateKey str = Ok privateKey /\
    Account_create privateKey password (importedLabel draws torusType)
      (scryptParamsOf (scrypt base)) (saltBytes draws) = Ok account /\
    wallet' = registerAccount base account /\
    res = {| encryptedWif := PrivateKey_serializeWIF (encryptedKey account);
             walletJson := Wallet_toJson wallet';
             wif := PrivateKey_serializeWIF privateKey |}.
Proof.
  unfold accountImportPrivateKey.
  destruct target as [ref|].
  - destruct (resolveWallet ref) as [base|e] eqn:Href; [simpl|discriminate].
    destruct (importedPrivateKey str) as [privateKey|e] eqn:Hkey;
      [simpl|discriminate].
    destruct (Account_create privateKey password _ _ _) as [account|e]
      eqn:Hcreate; [simpl|discriminate].
    intros [= <- <-]. exists base, privateKey, account. auto.
  - simpl.
    destruct (importedPrivateKey str) as [privateKey|e] eqn:Hkey;
      [simpl|discriminate].
    destruct (Account_create privateKey password _ _ _) as [account|e]
      eqn:Hcreate; [simpl|discriminate].
    intros [= <- <-].
    exists (Wallet_create (walletId draws)), privateKey, account. auto.
Qed.

Lemma registerAccount_scrypt base account :
  scrypt (registerAccount base account) = scrypt base.
Proof.
  unfold registerAccount. now destruct (negb _).
Qed.

Lemma registerAccount_holds base account :
  In (address account)
    (map (@address _ _) (accounts (registerAccount base account))).
Proof.
  unfold registerAccount.
  destruct (existsb _ (accounts base)) eqn:E; simpl.
  - apply existsb_address in E. destruct E as (b & Hin & <-).
    now apply in_map.
  - rewrite map_app. apply in_or_app. right. now left.
Qed.

Lemma getAccount_registered base account :
  address account <> "" ->
  exists found,
    getAccount (Loaded (registerAccount base account)) = Ok (Some found) /\
    In found (accounts (registerAccount base account)) /\
    address found = address account.
Proof.
  intros Hne. unfold getAccount. cbn [resolveWallet bind].
  assert (Hd : defaultAccountAddress (registerAccount base account)
               = Some (address account))
    by (unfold registerAccount; now destruct (negb _)).
  rewrite Hd. cbn [is_set same_address].
  assert (Ht : truthy (address account) = true)
    by (unfold truthy; now apply negb_true_iff, String.eqb_neq).
  rewrite Ht.
  destruct (find_address _ _ (registerAccount_holds base account))
    as (found & Hfind & Hin & Ha).
  rewrite Hfind. eauto.
Qed.

(** X10. After a successful [accountImportPrivateKey], on any wallet
    argument, the default address of the wallet is the address of the account
    that was created, the [wallet] property of the result is the JSON text of
    that wallet, and [getAddress] on the wallet returns that address. *)
Theorem getAddress_after_import draws str password
    (target : option (WalletRef KeyType CurveLabel)) torusType wallet' res :
  (forall privateKey pw lbl params saltText account,
     Account_create privateKey pw lbl params saltText = Ok account ->
     address account <> "") ->
  accountImportPrivateKey draws str password target torusType
  = Ok (wallet', res) ->
  exists d,
    defaultAccountAddress wallet' = Some d /\
    (exists a, In a (accounts wallet') /\ address a = d) /\
    walletJson res = Wallet_toJson wallet' /\
    getAddress (Loaded wallet') = Ok d.
Proof.
  intros Hcreate Hcall.
  destruct (accountImportPrivateKey_any _ _ _ _ _ Hcall)
    as (base & privateKey & account & _ & _ & Hacc & -> & ->).
  pose proof (Hcreate _ _ _ _ _ _ Hacc) as Hne.
  destruct (getAccount_registered base account Hne)
    as (found & Hget & Hin & Ha).
  exists (address account). split; [|split; [|split]].
  - unfold registerAccount. now destruct (negb _).
  - eauto.
  - reflexivity.
  - unfold getAddress. rewrite Hget. simpl. now rewrite Ha.
Qed.

(** X11. When the address of an import is already in the wallet, the wallet
    keeps the account it had: [getAccount] returns that old account, and
    [decryptAccount] hands the SDK's [decrypt] the old account's encrypted
    key and salt, not those made with the password of the new import. *)
Theorem reimport_keeps_old_account draws str password torusType
    wallet wallet' res (attempt : string) :
  (forall privateKey pw lbl params saltText account,
     Account_create privateKey pw lbl params saltText = Ok account ->
     address account <> "") ->
  accountImportPrivateKey draws str password (Some (Loaded wallet)) torusType
  = Ok (wallet', res) ->
  (exists b, In b (accounts wallet) /\
             defaultAccountAddress wallet' = Some (address b)) ->
  exists old,
    In old (accounts wallet) /\
    defaultAccountAddress wallet' = Some (address old) /\
    accounts wallet' = accounts wallet /\
    getAccount (Loaded wallet') = Ok (Some old) /\
    decryptAccount wallet' attempt =
    PrivateKey_decrypt (encryptedKey old) attempt (address old)
      (base64_to_hex (salt old)) (scryptParamsOf (scrypt wallet)).
Proof.
  intros Hcreate Hcall (b & Hb & Hdb).
  destruct (accountImportPrivateKey_ok _ _ _ (Loaded wallet) _ eq_refl Hcall)
    as (privateKey & account & _ & Hacc & -> & _).
  pose proof (Hcreate _ _ _ _ _ _ Hacc) as Hne.
  assert (Hknown : exists b0, In b0 (accounts wallet) /\
                              address b0 = address account).
  { exists b. split; [exact Hb|].
    unfold registerAccount in Hdb. destruct (negb _) in Hdb;
      simpl in Hdb; congruence. }
  rewrite (registerAccount_known _ _ Hknown).
  assert (Hin : In (address account) (map (@address _ _) (accounts wallet))).
  { destruct Hknown as (b0 & Hb0 & <-). now apply in_map. }
  destruct (find_address _ _ Hin) as (old & Hfind & Hold & Ha).
  exists old. split; [exact Hold|]. split; [simpl; now rewrite Ha|].
  split; [reflexivity|].
  assert (Ht : truthy (address account) = true)
    by (unfold truthy; now apply negb_true_iff, String.eqb_neq).
  unfold decryptAccount, getAccount. simpl. rewrite Ht, Hfind. simpl.
  split; reflexivity.
Qed.

Lemma filter_app_last accs account :
  (forall b, In b accs -> address b <> address account) ->
  filter (fun a => negb (address a =? address account)) (accs ++ [account])
  = accs.
Proof.
  intros Hfresh. rewrite filter_app. simpl.
  rewrite String.eqb_refl. simpl. rewrite app_nil_r.
  apply filter_all. intros a Ha.
  apply negb_true_iff, String.eqb_neq. auto.
Qed.

(** X12. Importing an account with a fresh address and then deleting that
    address gives back the list of accounts, but not the default address:
    the default becomes the address of the first account, or [''] when there
    is none. *)
Theorem import_then_delete draws str password torusType
    wallet wallet' res :
  accountImportPrivateKey draws str password (Some (Loaded wallet)) torusType
  = Ok (wallet', res) ->
  List.length (accounts wallet') = S (List.length (accounts wallet)) ->
  exists d wallet'' answer,
    defaultAccountAddress wallet' = Some d /\
    accountDelete d (Loaded wallet') = Ok (wallet'', answer) /\
    accounts wallet'' = accounts wallet /\
    defaultAccountAddress wallet'' =
      match accounts wallet with
      | first :: _ => Some (address first)
      | [] => Some ""
      end.
Proof.
  intros Hcall Hlen.
  destruct (accountImportPrivateKey_ok _ _ _ (Loaded wallet) _ eq_refl Hcall)
    as (privateKey & account & _ & _ & -> & _).
  assert (Hfresh : forall b, In b (accounts wallet) ->
                             address b <> address account).
  { intros b Hb Hab.
    rewrite registerAccount_known in Hlen by eauto.
    simpl in Hlen. lia. }
  rewrite (registerAccount_fresh _ _ Hfresh).
  exists (address account). eexists. eexists.
  split; [reflexivity|]. split; [apply accountDelete_loaded|].
  unfold deleted. simpl. rewrite (filter_app_last _ _ Hfresh).
  rewrite String.eqb_refl. split; reflexivity.
Qed.

(** X13. [accountSignUp] returns the mnemonic that was generated, imports
    the WIF text of the key derived from it along the path of the mode, and
    leaves a wallet whose default account is the one it created. *)
Theorem accountSignUp_spec generated draws password neo
    (target : option (WalletRef KeyType CurveLabel))
    wallet' (mnemonics : string) res :
  (forall privateKey pw lbl params saltText account,
     Account_create privateKey pw lbl params saltText = Ok account ->
     address account <> "") ->
  accountSignUp generated draws password neo target
  = Ok (wallet', (mnemonics, res)) ->
  mnemonics = generated /\
  (exists derived,
     PrivateKey_generateFromMnemonic generated (bip32PathOf neo)
     = Ok derived /\
     accountImportPrivateKey draws (PrivateKey_serializeWIF derived)
       password target None = Ok (wallet', res)) /\
  (exists d,
     defaultAccountAddress wallet' = Some d /\
     (exists a, In a (accounts wallet') /\ address a = d) /\
     getAddress (Loaded wallet') = Ok d).
Proof.
  intros Hcreate Hcall. unfold accountSignUp in Hcall.
  destruct (accountImportMnemonics_key _ _ _ _ _ Hcall)
    as (derived & Hderived & -> & Himport).
  split; [reflexivity|]. split; [eauto|].
  destruct (accountImportPrivateKey_any _ _ _ _ _ Himport)
    as (base & privateKey & account & _ & _ & Hacc & -> & _).
  pose proof (Hcreate _ _ _ _ _ _ Hacc) as Hne.
  destruct (getAccount_registered base account Hne)
    as (found & Hget & Hin & Ha).
  exists (address account). split; [|split].
  - unfold registerAccount. now destruct (negb _).
  - eauto.
  - unfold getAddress. rewrite Hget. simpl. now rewrite Ha.
Qed.

End AfterImport.

Lemma Sample_create_address
    (privateKey : PrivateKey Sample.KeyType Sample.CurveLabel)
    (pw lbl : string) (params : ScryptParams) (saltText : string)
    (account : Account Sample.KeyType Sample.CurveLabel) :
  Sample.create privateKey pw lbl params saltText = Ok account ->
  address account <> "".
Proof.
  intros [= <-]. discriminate.
Defined.

Lemma getAddress_after_import_witness :
  exists wallet' res,
    accountImportPrivateKey Sample.draws Sample.rawKey "pw" None None
    = Ok (wallet', res) /\
    getAddress (Loaded wallet') = Ok (String "A" Sample.rawKey).
Proof.
  destruct (accountImportPrivateKey Sample.draws Sample.rawKey "pw" None
              None) as [[wallet' res]|e] eqn:Hcall;
    [|vm_compute in Hcall; discriminate].
  destruct (@getAddress_after_import _ _ Sample.sdk _ _ _ _ _ _ _
              Sample_create_address Hcall) as (d & Hd & _ & _ & Hget).
  exists wallet', res. split; [reflexivity|].
  rewrite Hget. f_equal.
  vm_compute in Hcall. injection Hcall as <- _.
  simpl in Hd. now injection Hd as <-.
Defined.

Lemma reimport_keeps_old_account_witness :
  exists wallet' res,
    accountImportPrivateKey Sample.draws Sample.rawKey "new password"
      (Some (Loaded (Sample.wallet [Sample.K; Sample.B] (Some "AddrB"))))
      None
    = Ok (wallet', res) /\
    getAccount (Loaded wallet') = Ok (Some Sample.K).
Proof.
  set (w := Sample.wallet [Sample.K; Sample.B] (Some "AddrB")).
  destruct (accountImportPrivateKey Sample.draws Sample.rawKey
              "new password" (Some (Loaded w)) None)
    as [[wallet' res]|e] eqn:Hcall; [|vm_compute in Hcall; discriminate].
  assert (Hd : defaultAccountAddress wallet' = Some (address Sample.K))
    by (vm_compute in Hcall; injection Hcall as <- _; reflexivity).
  destruct (@reimport_keeps_old_account _ _ Sample.sdk _ _ _ _ _ _ _ "pw"
              Sample_create_address Hcall)
    as (old & Hold & Hdo & _ & Hget & _).
  - exists Sample.K. split; [now left|exact Hd].
  - exists wallet', res. split; [reflexivity|].
    rewrite Hget. f_equal. f_equal.
    rewrite Hd in Hdo. injection Hdo as Hdo.
    destruct Hold as [<-|[<-|[]]]; [reflexivity|discriminate Hdo].
Defined.

Lemma import_then_delete_witness :
  exists d wallet' res wallet'' answer,
    accountImportPrivateKey Sample.draws Sample.rawKey "pw"
      (Some (Loaded (Sample.wallet [Sample.A; Sample.B] (Some "AddrB"))))
      None
    = Ok (wallet', res) /\
    accountDelete d (Loaded wallet') = Ok (wallet'', answer) /\
    accounts wallet'' = [Sample.A; Sample.B] /\
    defaultAccountAddress wallet'' = Some "AddrA".
Proof.
  set (w := Sample.wallet [Sample.A; Sample.B] (Some "AddrB")).
  destruct (accountImportPrivateKey Sample.draws Sample.rawKey "pw"
              (Some (Loaded w)) None)
    as [[wallet' res]|e] eqn:Hcall; [|vm_compute in Hcall; discriminate].
  assert (Hlen : List.length (accounts wallet')
                 = S (List.length (accounts w)))
    by (vm_compute in Hcall; injection Hcall as <- _; reflexivity).
  destruct (@import_then_delete _ _ Sample.sdk _ _ _ _ _ _ _ Hcall Hlen)
    as (d & wallet'' & answer & _ & Hdel & Haccs & Hdef).
  exists d, wallet', res, wallet'', answer. auto.
Defined.

Lemma accountSignUp_spec_witness :
  exists wallet' res,
    accountSignUp (sdk := Sample.signing) "abandon ability able"
      Sample.draws "pw" false None
    = Ok (wallet', ("abandon ability able", res)) /\
    getAddress (sdk := Sample.signing) (Loaded wallet')
    = Ok (String "A" Sample.rawKey).
Proof.
  destruct (accountSignUp (sdk := Sample.signing) "abandon ability able"
              Sample.draws "pw" false None)
    as [[wallet' [mnemonics res]]|e] eqn:Hcall;
    [|vm_compute in Hcall; discriminate].
  destruct (@accountSignUp_spec _ _ Sample.signing _ _ _ _ _ _ _ _
              Sample_create_address Hcall)
    as (-> & _ & d & Hd & _ & Hget).
  exists wallet', res. split; [reflexivity|].
  rewrite Hget. f_equal.
  vm_compute in Hcall. injection Hcall as <- _.
  simpl in Hd. now injection Hd as <-.
Defined.

(** ** What the calls leave alone *)

Section Frame.

Context {KeyType CurveLabel : Type} {sdk : Sdk KeyType CurveLabel}.

Implicit Types wallet : Wallet KeyType CurveLabel.
Implicit Types a b account : Account KeyType CurveLabel.
Implicit Types accs : list (Account KeyType CurveLabel).

Lemma perform_scrypt wallet (op : Operation) :
  scrypt (perform wallet op) = scrypt wallet.
Proof.
  destruct op as [draws str password torus|addr|]; unfold perform.
  - destruct (accountImportPrivateKey _ _ _ _ _) as [[wallet' res]|e] eqn:E;
      [|reflexivity].
    destruct (accountImportPrivateKey_ok _ _ _ (Loaded wallet) _ eq_refl E)
      as (privateKey & account & _ & _ & -> & _).
    apply registerAccount_scrypt.
  - rewrite accountDelete_loaded. reflexivity.
  - rewrite filterTorusAccount_loaded. reflexivity.
Qed.

(** X14. No sequence of calls changes the scrypt parameters of the wallet.
    An import leaves the accounts the wallet had, in place, and adds at most
    one at the end; a deletion and a filter only drop accounts, keeping the
    order of the rest. *)
Theorem calls_frame wallet :
  (forall ops : list Operation,
     scrypt (performAll wallet ops) = scrypt wallet) /\
  (forall draws str password torusType,
     exists added,
       accounts (perform wallet
                   (ImportPrivateKey draws str password torusType))
       = accounts wallet ++ added /\
       (List.length added <= 1)%nat) /\
  (forall addr,
     exists keep,
       accounts (perform wallet (DeleteAccount addr))
       = filter keep (accounts wallet)) /\
  (exists keep,
     accounts (perform wallet FilterTorus) = filter keep (accounts wallet)).
Proof.
  split; [|split; [|split]].
  - intros ops. unfold performAll. revert wallet.
    induction ops as [|op ops IH]; intros wallet; simpl; [reflexivity|].
    rewrite IH. apply perform_scrypt.
  - intros draws str password torusType. unfold perform.
    destruct (accountImportPrivateKey _ _ _ _ _) as [[wallet' res]|e] eqn:E.
    + destruct (accountImportPrivateKey_ok _ _ _ (Loaded wallet) _ eq_refl E)
        as (privateKey & account & _ & _ & -> & _).
      unfold registerAccount.
      destruct (negb _); simpl.
      * exists [account]. split; [reflexivity|simpl; lia].
      * exists []. split; [now rewrite app_nil_r|simpl; lia].
    + exists []. split; [now rewrite app_nil_r|simpl; lia].
  - intros addr. unfold perform. rewrite accountDelete_loaded.
    eexists. reflexivity.
  - unfold perform. rewrite filterTorusAccount_loaded.
    eexists. reflexivity.
Qed.

End Frame.

(** ** Labels and keys *)

Section LabelsAndKeys.

Context {KeyType CurveLabel : Type} {sdk : Sdk KeyType CurveLabel}.

Implicit Types account : Account KeyType CurveLabel.

Lemma String_split_single (sep : ascii) (s x : string) :
  String_split sep s = [x] -> s = x.
Proof.
  revert x. induction s as [|c rest IH]; simpl; intros x.
  - now intros [= <-].
  - destruct (Ascii.eqb c sep).
    + intros [= _ H]. destruct (String_split_not_nil _ _ H).
    + destruct (String_split sep rest) as [|piece pieces] eqn:E;
        [destruct (String_split_not_nil sep rest E)|].
      intros [= <- ->]. now rewrite (IH piece eq_refl).
Qed.

(** X15. An account whose label is the one [accountImportPrivateKey] builds
    (line 87) from a uuid without ['@'] is federated for [isTorusAccount]
    exactly when the [torusType] argument was ["google"] or ["discord"]:
    not when it was left out or empty, nor for any other provider. *)
Theorem imported_label_federated (draws : Draws)
    (torusType : option string) account :
  occurrences "@" (labelId draws) = 0 ->
  label account = importedLabel draws torusType ->
  (isTorusAccount account = true <->
   torusType = Some "google" \/ torusType = Some "discord").
Proof.
  intros Hid Hlabel. rewrite isTorusAccount_split, Hlabel.
  unfold importedLabel.
  assert (Hbare : forall id provider,
            String_split "@" (labelId draws) <> [id; provider])
    by (intros id provider; rewrite (String_split_no_sep _ _ Hid);
        discriminate).
  destruct torusType as [t|].
  - destruct (truthy t) eqn:Ht.
    + change (labelId draws ++ "@" ++ t)%string
        with (labelId draws ++ String "@" t)%string.
      rewrite (String_split_app "@" (labelId draws) t Hid). split.
      * intros (id & provider & [= _ Hsplit] & Hp).
        apply String_split_single in Hsplit. subst t.
        destruct Hp as [-> | ->]; auto.
      * intros [[= ->]|[= ->]]; eexists _, _; split;
          try reflexivity; auto.
    + unfold truthy in Ht. apply negb_false_iff, String.eqb_eq in Ht.
      subst t. split.
      * intros (id & provider & H & _). destruct (Hbare _ _ H).
      * intros [[= ?]|[= ?]].
  - split.
    + intros (id & provider & H & _). destruct (Hbare _ _ H).
    + intros [?|?]; discriminate.
Qed.

Lemma Buffer_toString_hex_length (buf : list byte) :
  String.length (Buffer_toString_hex buf) = 2 * List.length buf.
Proof.
  induction buf as [|b rest IH]; simpl; [reflexivity|].
  rewrite IH. lia.
Qed.

Lemma hex_digit_lower (d : N) :
  (d < 16)%N ->
  In (hex_digit d) (list_ascii_of_string "0123456789abcdef").
Proof.
  intros H. unfold hex_digit.
  assert (Hcases : In d [0; 1; 2; 3; 4; 5; 6; 7; 8; 9; 10; 11; 12; 13; 14;
                         15]%N).
  { simpl. lia. }
  simpl in Hcases.
  repeat (destruct Hcases as [<-|Hcases]; [vm_compute; tauto|]).
  destruct Hcases.
Qed.

Lemma Buffer_toString_hex_digits (buf : list byte) (c : ascii) :
  In c (list_ascii_of_string (Buffer_toString_hex buf)) ->
  In c (list_ascii_of_string "0123456789abcdef").
Proof.
  induction buf as [|b rest IH]; intros H; simpl in H; [destruct H|].
  pose proof (Byte.to_N_bounded b) as Hb.
  destruct H as [<-|[<-|H]]; [| |exact (IH H)]; apply hex_digit_lower.
  - apply N.Div0.div_lt_upper_bound. lia.
  - apply N.mod_lt. discriminate.
Qed.

Lemma Reader_readBytes_length (count : nat) (rd sk rest : list byte) :
  Reader_readBytes count rd = Ok (sk, rest) -> List.length sk = count.
Proof.
  unfold Reader_readBytes.
  destruct (count <=? List.length rd)%nat eqn:E; [|discriminate].
  intros [= <- _]. apply Nat.leb_le in E. now apply firstn_length_le.
Qed.

(** X16. Every key [deserializePrivateKey] returns holds 32 bytes: its text
    is 64 lower-case hex digits, whatever the length of the input. *)
Theorem deserializePrivateKey_key (str : string)
    (privateKey : PrivateKey KeyType CurveLabel) :
  deserializePrivateKey str = Ok privateKey ->
  String.length (key privateKey) = 64 /\
  (forall c, In c (list_ascii_of_string (key privateKey)) ->
             In c (list_ascii_of_string "0123456789abcdef")).
Proof.
  unfold deserializePrivateKey.
  destruct (Buffer_from_hex str) as [b|e]; [simpl|discriminate].
  assert (Hmade : forall (sk : list byte) algorithm curve,
            List.length sk = 32 ->
            Ok (mkPrivateKey (Buffer_toString_hex sk) algorithm
                  (mkKeyParameters curve)) = Ok privateKey ->
            String.length (key privateKey) = 64 /\
            (forall c, In c (list_ascii_of_string (key privateKey)) ->
                       In c (list_ascii_of_string "0123456789abcdef"))).
  { intros sk algorithm curve Hlen [= <-]. cbn [key]. split.
    - rewrite Buffer_toString_hex_length, Hlen. reflexivity.
    - apply Buffer_toString_hex_digits. }
  destruct (List.length b =? 32)%nat.
  - destruct (Reader_readBytes 32 b) as [[sk rest]|e] eqn:Hread;
      [simpl|discriminate].
    apply Hmade. exact (Reader_readBytes_length _ _ Hread).
  - destruct b as [|algorithmHex [|curveHex rd]]; try discriminate.
    cbn [Reader_readByte bind].
    destruct (Reader_readBytes 32 rd) as [[sk rest]|e] eqn:Hread;
      [cbn [bind]|discriminate].
    destruct (KeyType_fromHex _) as [algorithm|e]; [cbn [bind]|discriminate].
    destruct (CurveLabel_fromHex _) as [curve|e]; [cbn [bind]|discriminate].
    apply Hmade. exact (Reader_readBytes_length _ _ Hread).
Qed.

End LabelsAndKeys.

Lemma imported_label_federated_witness :
  isTorusAccount (Sample.account "AddrG" "9b2e@google") = true.
Proof.
  apply (imported_label_federated Sample.draws (Some "google")
           (Sample.account "AddrG" "9b2e@google") eq_refl eq_refl).
  now left.
Defined.

Lemma deserializePrivateKey_key_witness :
  exists privateKey,
    deserializePrivateKey Sample.rawKey = Ok privateKey /\
    String.length (key privateKey) = 64.
Proof.
  destruct (deserializePrivateKey Sample.rawKey) as [privateKey|e] eqn:E;
    [|vm_compute in E; discriminate].
  exists privateKey. split; [reflexivity|].
  exact (proj1 (@deserializePrivateKey_key _ _ Sample.sdk _ _ E)).
Defined.
